(** * European option pricing: Black-Scholes, Greeks and Monte Carlo

    A shallow embedding of the three engines of the [pricing] package
    ([black_scholes.py], [greeks.py], [monte_carlo.py]) and the proofs of
    their stated properties.

    Conventions of the model.
    - A Python/NumPy float is a real number of [R]: rounding, overflow and
      signed zeros are not modelled.  The only non-number that the code can
      produce from well-formed arguments, the [nan] that NumPy returns for
      the mean of an empty sample, is kept explicit ([fval]).
    - The scalar arguments are Python numbers ([float] or [int]), as in the
      package's own callers.  A division of Python numbers by zero raises
      [ZeroDivisionError]; with NumPy scalars the same division returns
      [inf] or [nan] and warns.  The properties below are stated where no
      divisor is zero, so that they hold for both kinds of scalar.
    - [np.log] is the logarithm [ln] of the reals, which agrees with it on
      positive arguments only: a property that goes through [np.log(S / K)]
      or [np.log(S)] is stated for [S > 0] and [K > 0].
    - A Python call either returns or raises: [outcome].
    - [norm.cdf] and [norm.pdf] are trusted primitives of SciPy; they are
      Section variables [norm_cdf] and [norm_pdf], and the few facts about
      the standard normal distribution that a proof needs are Section
      hypotheses.
    - The pseudo-random matrix [np.random.normal(0, 1, (n, m))] is an input
      of the model: [draws i step] is the entry [Z[i, step]]. *)

From Stdlib Require Import Reals Lra Lia List String ZArith Bool.
Import ListNotations.
Open Scope R_scope.

(** ** Python values and calls *)

Module Py.

(** The built-in exceptions that the modelled code can raise. *)
Inductive exn : Type :=
| ZeroDivisionError   (* float division by zero *)
| ValueError.         (* negative dimensions are not allowed *)

(** The result of a call. *)
Inductive outcome (A : Type) : Type :=
| Return (a : A)
| Raise (e : exn).
Arguments Return {A} a.
Arguments Raise {A} e.

Definition bind {A B : Type} (c : outcome A) (k : A -> outcome B) : outcome B :=
  match c with
  | Return a => k a
  | Raise e => Raise e
  end.

(** [a / b] on Python numbers: a zero divisor raises.  (On NumPy scalars it
    does not; the model is the one of Python numbers.) *)
Definition div (a b : R) : outcome R :=
  if Req_dec_T b 0 then Raise ZeroDivisionError else Return (a / b).

(** [max(a, 0)] and, element by element, [np.maximum(a, 0)]. *)
Definition max0 (a : R) : R := Rmax a 0.

(** Comparisons of floats, as the booleans that [if], [or] and the NumPy
    masks consume. *)
Definition leb (a b : R) : bool := if Rle_dec a b then true else false.
Definition ltb (a b : R) : bool := if Rlt_dec a b then true else false.
Definition gtb (a b : R) : bool := ltb b a.

(** [x == "call"] on strings. *)
Definition is_call (option_type : string) : bool := String.eqb option_type "call".

End Py.

Import Py.

Notation "x <- c ;; k" := (bind c (fun x => k))
  (at level 61, c at next level, right associativity).

(** ** NumPy arrays of floats, as lists *)

Module Np.

(** A float that may be [nan]. *)
Inductive fval : Type :=
| Num (x : R)
| NaN.

(** Element-wise binary operation on two arrays of one length. *)
Fixpoint map2 {A B C : Type} (f : A -> B -> C) (a : list A) (b : list B) : list C :=
  match a, b with
  | x :: a', y :: b' => f x y :: map2 f a' b'
  | _, _ => []
  end.

(** [a[mask]]: the entries of [a] where [mask] is true, in order. *)
Fixpoint compress {A : Type} (mask : list bool) (a : list A) : list A :=
  match mask, a with
  | true :: mask', x :: a' => x :: compress mask' a'
  | false :: mask', _ :: a' => compress mask' a'
  | _, _ => []
  end.

(** [a[mask] = vals]: the entries of [a] where [mask] is true are replaced,
    in order, by the entries of [vals]. *)
Fixpoint assign {A : Type} (mask : list bool) (a vals : list A) : list A :=
  match mask, a with
  | true :: mask', x :: a' =>
      match vals with
      | v :: vals' => v :: assign mask' a' vals'
      | [] => x :: assign mask' a' []
      end
  | false :: mask', x :: a' => x :: assign mask' a' vals
  | _, _ => a
  end.

(** Arithmetic of arrays, element by element, and of a scalar with an
    array (broadcast). *)
Definition add := map2 Rplus.
Definition sub := map2 Rminus.
Definition mul := map2 Rmult.
Definition divide := map2 Rdiv.
Definition sadd (c : R) := map (Rplus c).
Definition smul (c : R) := map (Rmult c).
Definition maximum0 := map max0.
Definition mask_and := map2 andb.

(** [np.any(mask)]. *)
Definition any (mask : list bool) : bool := existsb (fun b => b) mask.

(** An array has an element type: its values are integers ([int64]) or
    floats ([float64]).  Storing a float into an integer array truncates it
    towards zero. *)
Inductive dtype : Type :=
| int64
| float64.

Record ndarray : Type := mk_ndarray { dtype_of : dtype; values : list R }.

Definition trunc (x : R) : R :=
  if Rle_dec 0 x then IZR (Int_part x) else - IZR (Int_part (- x)).

Definition cast (d : dtype) (x : R) : R :=
  match d with
  | int64 => trunc x
  | float64 => x
  end.

(** [np.zeros_like(a)]: zeros of the shape and of the element type of [a]. *)
Definition zeros_like (a : ndarray) : ndarray :=
  mk_ndarray (dtype_of a) (repeat 0 (List.length (values a))).

(** [a[mask] = vals] on an array: the values are cast to the element type of
    [a]. *)
Definition setitem (mask : list bool) (a : ndarray) (vals : list R) : ndarray :=
  mk_ndarray (dtype_of a) (assign mask (values a) (map (cast (dtype_of a)) vals)).

(** [np.maximum(a, 0)] on an array, of the element type of [a]. *)
Definition maximum0_array (a : ndarray) : ndarray :=
  mk_ndarray (dtype_of a) (maximum0 (values a)).

Definition sum (a : list R) : R := fold_right Rplus 0 a.

(** [np.mean(a)]: [nan] on an empty array. *)
Definition mean (a : list R) : fval :=
  match a with
  | [] => NaN
  | _ => Num (sum a / INR (List.length a))
  end.

(** [np.std(a)], with its default [ddof=0]: the square root of the mean of
    the squared deviations from the mean. *)
Definition std (a : list R) : fval :=
  match a with
  | [] => NaN
  | _ =>
      let m := sum a / INR (List.length a) in
      Num (sqrt (sum (map (fun x => (x - m) ^ 2) a) / INR (List.length a)))
  end.

(** [x / d] for a float [x] that may be [nan]. *)
Definition fdiv (x : fval) (d : R) : fval :=
  match x with
  | Num v => Num (v / d)
  | NaN => NaN
  end.

(** [z * x], [x - y] and [x + y] for floats that may be [nan]. *)
Definition fscale (z : R) (x : fval) : fval :=
  match x with
  | Num v => Num (z * v)
  | NaN => NaN
  end.

Definition fsub (x y : fval) : fval :=
  match x, y with
  | Num u, Num v => Num (u - v)
  | _, _ => NaN
  end.

Definition fadd (x y : fval) : fval :=
  match x, y with
  | Num u, Num v => Num (u + v)
  | _, _ => NaN
  end.

End Np.

Import Np.

(** ** [black_scholes.py] *)

Module BlackScholesPricer.
Section WithNorm.

Variable norm_cdf : R -> R.

Definition price (S K T r sigma : R) (option_type : string) : outcome R :=
  if leb T 0 then
    if is_call option_type then Return (max0 (S - K))
    else Return (max0 (K - S))
  else if leb sigma 0 then
    if is_call option_type then Return (max0 (S - K * exp (- r * T)))
    else Return (max0 (K * exp (- r * T) - S))
  else
    q <- div S K ;;
    let d1 := (ln q + (r + 0.5 * sigma ^ 2) * T) / (sigma * sqrt T) in
    let d2 := d1 - sigma * sqrt T in
    let price :=
      if is_call option_type
      then S * norm_cdf d1 - K * exp (- r * T) * norm_cdf d2
      else K * exp (- r * T) * norm_cdf (- d2) - S * norm_cdf (- d1) in
    Return (max0 price).

Definition d1_d2 (S K T r sigma : R) : outcome (R * R) :=
  if leb T 0 || leb sigma 0 then Return (0, 0)
  else
    q <- div S K ;;
    let d1 := (ln q + (r + 0.5 * sigma ^ 2) * T) / (sigma * sqrt T) in
    let d2 := d1 - sigma * sqrt T in
    Return (d1, d2).

(** The arrays [S], [K], [T] and [sigma] have one length.  [S] comes with
    its element type, which [np.zeros_like(S)] gives to the result; [K], [T]
    and [sigma] are given by their values, their element types do not reach
    the result.  NumPy divides without raising, so the result is a plain
    array. *)
Definition price_vectorized (S : ndarray) (K T : list R) (r : R) (sigma : list R)
    (option_type : string) : ndarray :=
  let valid_mask :=
    mask_and (map (fun t => gtb t 0) T) (map (fun s => gtb s 0) sigma) in
  let prices := zeros_like S in
  let expired_mask := map (fun t => leb t 0) T in
  let prices :=
    if is_call option_type
    then setitem expired_mask prices
           (maximum0 (sub (compress expired_mask (values S)) (compress expired_mask K)))
    else setitem expired_mask prices
           (maximum0 (sub (compress expired_mask K) (compress expired_mask (values S)))) in
  let no_vol_mask :=
    mask_and (map (fun t => gtb t 0) T) (map (fun s => leb s 0) sigma) in
  let prices :=
    if is_call option_type
    then setitem no_vol_mask prices
           (maximum0
              (sub (compress no_vol_mask (values S))
                 (mul (compress no_vol_mask K)
                    (map exp (smul (- r) (compress no_vol_mask T))))))
    else setitem no_vol_mask prices
           (maximum0
              (sub (mul (compress no_vol_mask K)
                      (map exp (smul (- r) (compress no_vol_mask T))))
                 (compress no_vol_mask (values S)))) in
  let normal_mask := valid_mask in
  let prices :=
    if any normal_mask then
      let Sn := compress normal_mask (values S) in
      let Kn := compress normal_mask K in
      let Tn := compress normal_mask T in
      let sigman := compress normal_mask sigma in
      let d1 :=
        divide
          (add (map ln (divide Sn Kn))
             (mul (sadd r (smul 0.5 (map (fun s => s ^ 2) sigman))) Tn))
          (mul sigman (map sqrt Tn)) in
      let d2 := sub d1 (mul sigman (map sqrt Tn)) in
      if is_call option_type
      then setitem normal_mask prices
             (sub (mul Sn (map norm_cdf d1))
                (mul (mul Kn (map exp (smul (- r) Tn))) (map norm_cdf d2)))
      else setitem normal_mask prices
             (sub (mul (mul Kn (map exp (smul (- r) Tn)))
                     (map norm_cdf (map Ropp d2)))
                (mul Sn (map norm_cdf (map Ropp d1))))
    else prices in
  maximum0_array prices.

End WithNorm.
End BlackScholesPricer.

(** ** [greeks.py] *)

Module GreeksCalculator.
Section WithNorm.

Variables norm_cdf norm_pdf : R -> R.

Definition _d1_d2 (S K T r sigma : R) : outcome (R * R) :=
  if leb T 0 || leb sigma 0 then Return (0, 0)
  else
    q <- div S K ;;
    let d1 := (ln q + (r + 0.5 * sigma ^ 2) * T) / (sigma * sqrt T) in
    let d2 := d1 - sigma * sqrt T in
    Return (d1, d2).

Definition delta (S K T r sigma : R) (option_type : string) : outcome R :=
  if leb T 0 then
    if is_call option_type then Return (if gtb S K then 1 else 0)
    else Return (if ltb S K then -1 else 0)
  else if leb sigma 0 then Return 0
  else
    d <- _d1_d2 S K T r sigma ;;
    let d1 := fst d in
    if is_call option_type then Return (norm_cdf d1)
    else Return (- norm_cdf (- d1)).

Definition gamma (S K T r sigma : R) : outcome R :=
  if leb T 0 || leb sigma 0 then Return 0
  else
    d <- _d1_d2 S K T r sigma ;;
    let d1 := fst d in
    Return (norm_pdf d1 / (S * sigma * sqrt T)).

Definition vega (S K T r sigma : R) : outcome R :=
  if leb T 0 || leb sigma 0 then Return 0
  else
    d <- _d1_d2 S K T r sigma ;;
    let d1 := fst d in
    Return (S * norm_pdf d1 * sqrt T).

Definition theta (S K T r sigma : R) (option_type : string) : outcome R :=
  if leb T 0 || leb sigma 0 then Return 0
  else
    d <- _d1_d2 S K T r sigma ;;
    let d1 := fst d in
    let d2 := snd d in
    let term1 := - (S * norm_pdf d1 * sigma) / (2 * sqrt T) in
    let term2 :=
      if is_call option_type
      then - r * K * exp (- r * T) * norm_cdf d2
      else r * K * exp (- r * T) * norm_cdf (- d2) in
    Return ((term1 + term2) / 365.0).

Definition rho (S K T r sigma : R) (option_type : string) : outcome R :=
  if leb T 0 || leb sigma 0 then Return 0
  else
    d <- _d1_d2 S K T r sigma ;;
    let d2 := snd d in
    if is_call option_type
    then Return (K * T * exp (- r * T) * norm_cdf d2)
    else Return (- K * T * exp (- r * T) * norm_cdf (- d2)).

(** The dictionary of the five Greeks, in insertion order. *)
Definition all_greeks (S K T r sigma : R) (option_type : string)
    : outcome (list (string * R)) :=
  d <- delta S K T r sigma option_type ;;
  g <- gamma S K T r sigma ;;
  v <- vega S K T r sigma ;;
  t <- theta S K T r sigma option_type ;;
  h <- rho S K T r sigma option_type ;;
  Return [("delta"%string, d); ("gamma"%string, g); ("vega"%string, v);
          ("theta"%string, t); ("rho"%string, h)].

End WithNorm.
End GreeksCalculator.

(** ** [monte_carlo.py] *)

Module MonteCarloPricer.

(** The [n] rows of [m] draws each. *)
Definition matrix (draws : nat -> nat -> R) (n m : nat) : list (list R) :=
  map (fun i => map (draws i) (seq 0 m)) (seq 0 n).

(** [np.random.normal(0, 1, (n, m))]: the matrix of draws; a negative
    dimension is refused. *)
Definition random_normal (draws : nat -> nat -> R) (n m : Z)
    : outcome (list (list R)) :=
  if ((n <? 0) || (m <? 0))%Z then Raise ValueError
  else Return (matrix draws (Z.to_nat n) (Z.to_nat m)).

(** [Z[:, step]] *)
Definition column (Zm : list (list R)) (step : nat) : list R :=
  map (fun row => nth step row 0) Zm.

(** The terminal prices [ST] of the simulation branch. *)
Definition ST (Zm : list (list R)) (S T r sigma dt : R) (n_steps : Z) : list R :=
  if (n_steps =? 1)%Z then
    smul S (map exp (sadd ((r - 0.5 * sigma ^ 2) * T)
                       (smul (sigma * sqrt T) (column Zm 0))))
  else
    let log_ST := repeat (ln S + (r - 0.5 * sigma ^ 2) * dt) (List.length Zm) in
    let log_ST :=
      fold_left
        (fun log_ST step => add log_ST (smul (sigma * sqrt dt) (column Zm step)))
        (seq 0 (Z.to_nat n_steps)) log_ST in
    map exp log_ST.

Definition discounted_payoffs (ST : list R) (K T r : R) (option_type : string)
    : list R :=
  let payoffs :=
    if is_call option_type
    then maximum0 (map (fun st => st - K) ST)
    else maximum0 (map (fun st => K - st) ST) in
  smul (exp (- r * T)) payoffs.

(** The sample that the simulation branch averages, for counts that are
    not negative. *)
Definition simulated_payoffs (draws : nat -> nat -> R) (S K T r sigma : R)
    (option_type : string) (n_simulations n_steps : Z) : list R :=
  discounted_payoffs
    (ST (matrix draws (Z.to_nat n_simulations) (Z.to_nat n_steps))
       S T r sigma (T / IZR n_steps) n_steps)
    K T r option_type.

Definition price (draws : nat -> nat -> R) (S K T r sigma : R)
    (option_type : string) (n_simulations n_steps : Z)
    : outcome (fval * fval) :=
  if leb T 0 then
    let payoff := if is_call option_type then max0 (S - K) else max0 (K - S) in
    Return (Num payoff, Num 0)
  else if leb sigma 0 then
    let price :=
      if is_call option_type
      then max0 (S - K * exp (- r * T))
      else max0 (K * exp (- r * T) - S) in
    Return (Num price, Num 0)
  else
    (* [T / n_steps] on Python numbers *)
    dt <- div T (IZR n_steps) ;;
    Zm <- random_normal draws n_simulations n_steps ;;
    let ST := ST Zm S T r sigma dt n_steps in
    let discounted_payoffs := discounted_payoffs ST K T r option_type in
    let price := mean discounted_payoffs in
    let std_error := fdiv (std discounted_payoffs) (sqrt (IZR n_simulations)) in
    Return (price, std_error).

(** [norm_ppf] is [norm.ppf], the quantile function of the standard normal
    distribution, where it is finite: for a confidence level strictly
    between -1 and 1.  (At the level 1 it is infinite, and beyond it is
    nan.) *)
Definition price_with_confidence_interval (norm_ppf : R -> R)
    (draws : nat -> nat -> R) (S K T r sigma : R) (option_type : string)
    (n_simulations n_steps : Z) (confidence_level : R)
    : outcome (fval * fval * (fval * fval)) :=
  ps <- price draws S K T r sigma option_type n_simulations n_steps ;;
  let price := fst ps in
  let std_error := snd ps in
  let z_score := norm_ppf ((1 + confidence_level) / 2) in
  let margin := fscale z_score std_error in
  let confidence_interval := (fsub price margin, fadd price margin) in
  Return (price, std_error, confidence_interval).

End MonteCarloPricer.

(** ** A concrete distribution function, to instantiate [norm_cdf]

    [tail_cdf] is the distribution function of the density
    [|x| * exp (- x^2 / 2) / 2]: symmetric, between 0 and 1, with the
    Gaussian tails that the facts assumed of [norm_cdf] below rest on. *)

Definition tail_cdf (x : R) : R :=
  if Rle_dec x 0 then exp (- (x ^ 2) / 2) / 2 else 1 - exp (- (x ^ 2) / 2) / 2.

(** The density of the standard normal distribution. *)
Definition gaussian_pdf (x : R) : R := exp (- (x ^ 2) / 2) / sqrt (2 * PI).

(** A primitive of the Gaussian density on [[-1, 1]], to instantiate
    [norm_cdf] where a proof differentiates it. *)
Definition sample_range : -1 <= 1 := ltac:(lra).

Definition gaussian_pdf_continuous (x : R) (H : -1 <= x <= 1)
  : continuity_pt gaussian_pdf x :=
  ltac:(apply derivable_continuous_pt; unfold gaussian_pdf; reg;
        try (apply Rgt_not_eq, sqrt_lt_R0, Rmult_lt_0_compat;
             [lra | apply PI_RGT_0])).

Definition gaussian_primitive : R -> R :=
  primitive sample_range (FTC_P1 sample_range gaussian_pdf_continuous).

(** The quantile function of the logistic distribution, to instantiate
    [norm_ppf]. *)
Definition logistic_ppf (q : R) : R := ln (q / (1 - q)).

(** ** Sample inputs and the estimator named by the specification *)

(** The draws of a run in which every simulation draws the same value [z] at
    every step. *)
Definition constant_draws (z : R) : nat -> nat -> R := fun _ _ => z.

(** The draws of a run whose first simulation draws [0] and whose other
    simulations draw [ln 3], at every step. *)
Definition draws_0_ln3 : nat -> nat -> R :=
  fun i _ => match i with O => 0 | _ => ln 3 end.


(** * Properties *)

(** ** Comparisons, [max] and calls that return *)

Lemma leb_true (a b : R) : a <= b -> leb a b = true.
Proof. intros H. unfold leb. destruct (Rle_dec a b); [reflexivity | contradiction]. Qed.

Lemma leb_false (a b : R) : b < a -> leb a b = false.
Proof. intros H. unfold leb. destruct (Rle_dec a b); [lra | reflexivity]. Qed.

Lemma ltb_true (a b : R) : a < b -> ltb a b = true.
Proof. intros H. unfold ltb. destruct (Rlt_dec a b); [reflexivity | contradiction]. Qed.

Lemma ltb_false (a b : R) : b <= a -> ltb a b = false.
Proof. intros H. unfold ltb. destruct (Rlt_dec a b); [lra | reflexivity]. Qed.

Lemma gtb_true (a b : R) : b < a -> gtb a b = true.
Proof. apply ltb_true. Qed.

Lemma gtb_false (a b : R) : a <= b -> gtb a b = false.
Proof. apply ltb_false. Qed.

Lemma leb_gtb (a b : R) : gtb a b = negb (leb a b).
Proof.
  destruct (Rle_lt_dec a b) as [H | H].
  - rewrite gtb_false, leb_true by assumption. reflexivity.
  - rewrite gtb_true, leb_false by assumption. reflexivity.
Qed.

Lemma max0_nonneg (a : R) : 0 <= max0 a.
Proof. unfold max0. apply Rmax_r. Qed.

Lemma max0_id (a : R) : 0 <= a -> max0 a = a.
Proof. intros H. unfold max0. apply Rmax_left. exact H. Qed.

Lemma max0_idem (a : R) : max0 (max0 a) = max0 a.
Proof. apply max0_id, max0_nonneg. Qed.

Lemma div_nonzero (a b : R) : b <> 0 -> div a b = Return (a / b).
Proof. intros H. unfold div. destruct (Req_dec_T b 0); [contradiction | reflexivity]. Qed.

Lemma is_call_call : is_call "call" = true.
Proof. reflexivity. Qed.

Lemma is_call_put : is_call "put" = false.
Proof. reflexivity. Qed.

Lemma is_call_other (option_type : string) :
  option_type <> "call"%string -> is_call option_type = false.
Proof. intros H. unfold is_call. apply String.eqb_neq. exact H. Qed.

(** ** The analytical price *)

Section AnalyticalPrice.

Variable norm_cdf : R -> R.

Abbreviation price := (BlackScholesPricer.price norm_cdf).

(** The three branches, for an option type that is not ["call"] read as a
    put. *)
Lemma price_expired (S K T r sigma : R) (option_type : string) :
  T <= 0 ->
  price S K T r sigma option_type =
  Return (if is_call option_type then Rmax (S - K) 0 else Rmax (K - S) 0).
Proof.
  intros HT. unfold price, BlackScholesPricer.price.
  rewrite (leb_true _ _ HT). destruct (is_call option_type); reflexivity.
Qed.

Lemma price_no_vol (S K T r sigma : R) (option_type : string) :
  0 < T -> sigma <= 0 ->
  price S K T r sigma option_type =
  Return (if is_call option_type
          then Rmax (S - K * exp (- r * T)) 0
          else Rmax (K * exp (- r * T) - S) 0).
Proof.
  intros HT Hs. unfold price, BlackScholesPricer.price.
  rewrite (leb_false _ _ HT), (leb_true _ _ Hs).
  destruct (is_call option_type); reflexivity.
Qed.

Lemma price_normal (S K T r sigma : R) (option_type : string) :
  K <> 0 -> 0 < T -> 0 < sigma ->
  let d1 := (ln (S / K) + (r + sigma ^ 2 / 2) * T) / (sigma * sqrt T) in
  let d2 := d1 - sigma * sqrt T in
  price S K T r sigma option_type =
  Return (if is_call option_type
          then Rmax (S * norm_cdf d1 - K * exp (- r * T) * norm_cdf d2) 0
          else Rmax (K * exp (- r * T) * norm_cdf (- d2) - S * norm_cdf (- d1)) 0).
Proof.
  intros HK HT Hs d1 d2. unfold price, BlackScholesPricer.price.
  rewrite (leb_false _ _ HT), (leb_false _ _ Hs), (div_nonzero _ _ HK).
  cbn [bind]. unfold max0.
  replace (0.5 * sigma ^ 2) with (sigma ^ 2 / 2) by lra.
  fold d1. fold d2. destruct (is_call option_type); reflexivity.
Qed.

(** C1. For S > 0 and K > 0 the scalar analytical price is the intrinsic
    value when T <= 0, the discounted intrinsic value when T > 0 and
    sigma <= 0, and otherwise the Black-Scholes closed form in d1 and d2,
    clamped below by zero; for a call and for a put. *)
Theorem price_three_way (S K T r sigma : R) :
  0 < S -> 0 < K ->
  let d1 := (ln (S / K) + (r + sigma ^ 2 / 2) * T) / (sigma * sqrt T) in
  let d2 := d1 - sigma * sqrt T in
  (T <= 0 ->
     price S K T r sigma "call" = Return (Rmax (S - K) 0) /\
     price S K T r sigma "put" = Return (Rmax (K - S) 0)) /\
  (0 < T -> sigma <= 0 ->
     price S K T r sigma "call" = Return (Rmax (S - K * exp (- r * T)) 0) /\
     price S K T r sigma "put" = Return (Rmax (K * exp (- r * T) - S) 0)) /\
  (0 < T -> 0 < sigma ->
     price S K T r sigma "call" =
       Return (Rmax (S * norm_cdf d1 - K * exp (- r * T) * norm_cdf d2) 0) /\
     price S K T r sigma "put" =
       Return (Rmax (K * exp (- r * T) * norm_cdf (- d2) - S * norm_cdf (- d1)) 0)).
Proof.
  intros HS HK d1 d2. repeat split.
  - rewrite price_expired by assumption. reflexivity.
  - rewrite price_expired by assumption. reflexivity.
  - rewrite price_no_vol by assumption. reflexivity.
  - rewrite price_no_vol by assumption. reflexivity.
  - rewrite price_normal by (assumption || lra). reflexivity.
  - rewrite price_normal by (assumption || lra). reflexivity.
Qed.

End AnalyticalPrice.

(** ** The exponent that links [d1] and [d2] *)

Section D1D2.

Variables S K T r sigma : R.
Hypothesis HS : 0 < S.
Hypothesis HK : 0 < K.
Hypothesis HT : 0 < T.
Hypothesis Hsigma : 0 < sigma.

Let s := sigma * sqrt T.
Let d1 := (ln (S / K) + (r + sigma ^ 2 / 2) * T) / s.

Lemma vol_sqrt_pos : 0 < sigma * sqrt T.
Proof. apply Rmult_lt_0_compat; [assumption | apply sqrt_lt_R0; assumption]. Qed.

Lemma d1_times_vol : d1 * s - s ^ 2 / 2 = ln (S / K) + r * T.
Proof.
  assert (Hs : 0 < s) by apply vol_sqrt_pos.
  assert (Hsq : s ^ 2 = sigma ^ 2 * T).
  { unfold s. replace ((sigma * sqrt T) ^ 2) with (sigma ^ 2 * (sqrt T * sqrt T)) by ring.
    rewrite sqrt_sqrt by lra. reflexivity. }
  unfold d1. rewrite Hsq. field. lra.
Qed.

Lemma exp_d1_times_vol : exp (d1 * s - s ^ 2 / 2) = S / K * exp (r * T).
Proof.
  rewrite d1_times_vol, exp_plus, exp_ln; [reflexivity |].
  apply Rdiv_lt_0_compat; assumption.
Qed.

Lemma exp_neg_d1_times_vol :
  exp ((- (d1 - s)) * s - s ^ 2 / 2) = K / S * exp (- r * T).
Proof.
  replace ((- (d1 - s)) * s - s ^ 2 / 2) with (- (d1 * s - s ^ 2 / 2)) by field.
  rewrite d1_times_vol, exp_Ropp, exp_plus, exp_ln
    by (apply Rdiv_lt_0_compat; assumption).
  replace (- r * T) with (- (r * T)) by ring. rewrite exp_Ropp.
  field. repeat split; try lra.
  apply Rgt_not_eq, exp_pos.
Qed.

End D1D2.

(** ** [tail_cdf] is a symmetric distribution function with Gaussian tails *)

Lemma exp_neg_sq_le_1 (x : R) : exp (- (x ^ 2) / 2) <= 1.
Proof.
  rewrite <- exp_0. destruct (Req_dec x 0) as [-> | Hx].
  - right. f_equal. lra.
  - left. apply exp_increasing. nra.
Qed.

Lemma tail_cdf_range (x : R) : 0 <= tail_cdf x <= 1.
Proof.
  pose proof (exp_pos (- (x ^ 2) / 2)). pose proof (exp_neg_sq_le_1 x).
  unfold tail_cdf. destruct (Rle_dec x 0); lra.
Qed.

Lemma tail_cdf_sym (x : R) : tail_cdf (- x) = 1 - tail_cdf x.
Proof.
  unfold tail_cdf. replace ((- x) ^ 2) with (x ^ 2) by ring.
  destruct (Rle_dec (- x) 0), (Rle_dec x 0); try lra.
  assert (x = 0) as -> by lra.
  replace (- (0 ^ 2) / 2) with 0 by lra. rewrite exp_0. lra.
Qed.

Lemma tail_cdf_tilt (d s : R) :
  0 < s -> tail_cdf (d - s) <= exp (d * s - s ^ 2 / 2) * tail_cdf d.
Proof.
  intros Hs.
  assert (Hshift : exp (d * s - s ^ 2 / 2) * exp (- (d ^ 2) / 2) =
                   exp (- ((d - s) ^ 2) / 2)).
  { rewrite <- exp_plus. f_equal. field. }
  pose proof (exp_pos (- ((d - s) ^ 2) / 2)) as Hpos.
  pose proof (exp_neg_sq_le_1 (d - s)) as Hle1.
  unfold tail_cdf. destruct (Rle_dec (d - s) 0) as [H1 | H1], (Rle_dec d 0) as [H2 | H2].
  - right. rewrite <- Hshift. field.
  - assert (exp (- ((d - s) ^ 2) / 2) <= exp (d * s - s ^ 2 / 2)).
    { destruct (Req_dec d 0) as [-> | Hd]; [lra |].
      left. apply exp_increasing. nra. }
    nra.
  - lra.
  - assert (1 <= exp (d * s - s ^ 2 / 2)).
    { rewrite <- exp_0. left. apply exp_increasing. nra. }
    nra.
Qed.

(** ** Delta *)

Section Delta.

Variable norm_cdf : R -> R.

Abbreviation delta := (GreeksCalculator.delta norm_cdf).

Lemma _d1_d2_normal (S K T r sigma : R) :
  K <> 0 -> 0 < T -> 0 < sigma ->
  let d1 := (ln (S / K) + (r + sigma ^ 2 / 2) * T) / (sigma * sqrt T) in
  GreeksCalculator._d1_d2 S K T r sigma = Return (d1, d1 - sigma * sqrt T).
Proof.
  intros HK HT Hs d1. unfold GreeksCalculator._d1_d2.
  rewrite (leb_false _ _ HT), (leb_false _ _ Hs), (div_nonzero _ _ HK).
  cbn [orb bind].
  replace (0.5 * sigma ^ 2) with (sigma ^ 2 / 2) by lra. reflexivity.
Qed.

Lemma delta_expired (S K T r sigma : R) (option_type : string) :
  T <= 0 ->
  delta S K T r sigma option_type =
  Return (if is_call option_type
          then if Rlt_dec K S then 1 else 0
          else if Rlt_dec S K then -1 else 0).
Proof.
  intros HT. unfold GreeksCalculator.delta, gtb, ltb.
  rewrite (leb_true _ _ HT).
  destruct (is_call option_type), (Rlt_dec K S), (Rlt_dec S K); reflexivity.
Qed.

Lemma delta_no_vol (S K T r sigma : R) (option_type : string) :
  0 < T -> sigma <= 0 -> delta S K T r sigma option_type = Return 0.
Proof.
  intros HT Hs. unfold GreeksCalculator.delta.
  rewrite (leb_false _ _ HT), (leb_true _ _ Hs). reflexivity.
Qed.

Lemma delta_normal (S K T r sigma : R) (option_type : string) :
  K <> 0 -> 0 < T -> 0 < sigma ->
  let d1 := (ln (S / K) + (r + sigma ^ 2 / 2) * T) / (sigma * sqrt T) in
  delta S K T r sigma option_type =
  Return (if is_call option_type then norm_cdf d1 else - norm_cdf (- d1)).
Proof.
  intros HK HT Hs d1. unfold GreeksCalculator.delta.
  rewrite (leb_false _ _ HT), (leb_false _ _ Hs), _d1_d2_normal by assumption.
  cbn [bind fst]. fold d1. destruct (is_call option_type); reflexivity.
Qed.

(** C8. For S > 0 and K > 0, Delta is: when T <= 0, 1 if S > K else 0 for a
    call and -1 if S < K else 0 for a put; when T > 0 and sigma <= 0, 0 for
    both types; otherwise Phi(d1) for a call and -Phi(-d1) for a put. *)
Theorem delta_three_way (S K T r sigma : R) :
  0 < S -> 0 < K ->
  let d1 := (ln (S / K) + (r + sigma ^ 2 / 2) * T) / (sigma * sqrt T) in
  (T <= 0 ->
     (S > K -> delta S K T r sigma "call" = Return 1) /\
     (~ S > K -> delta S K T r sigma "call" = Return 0) /\
     (S < K -> delta S K T r sigma "put" = Return (-1)) /\
     (~ S < K -> delta S K T r sigma "put" = Return 0)) /\
  (0 < T -> sigma <= 0 ->
     delta S K T r sigma "call" = Return 0 /\
     delta S K T r sigma "put" = Return 0) /\
  (0 < T -> 0 < sigma ->
     delta S K T r sigma "call" = Return (norm_cdf d1) /\
     delta S K T r sigma "put" = Return (- norm_cdf (- d1))).
Proof.
  intros HS HK d1. split; [| split].
  - intros HT. repeat split; intros H; rewrite delta_expired by assumption; cbn.
    + destruct (Rlt_dec K S); [reflexivity | lra].
    + destruct (Rlt_dec K S); [lra | reflexivity].
    + destruct (Rlt_dec S K); [reflexivity | lra].
    + destruct (Rlt_dec S K); [lra | reflexivity].
  - intros HT Hs. split; apply delta_no_vol; assumption.
  - intros HT Hs. split; rewrite delta_normal by (assumption || lra); reflexivity.
Qed.

Hypothesis norm_cdf_range : forall x, 0 <= norm_cdf x <= 1.

(** C10. For S > 0 and K > 0, in every branch, the Delta of a call lies in
    [0, 1] and the Delta of a put lies in [-1, 0]; hence |Delta| <= 1. *)
Theorem delta_bounds (S K T r sigma : R) :
  0 < S -> 0 < K ->
  (exists c, delta S K T r sigma "call" = Return c /\ 0 <= c <= 1 /\ Rabs c <= 1) /\
  (exists p, delta S K T r sigma "put" = Return p /\ -1 <= p <= 0 /\ Rabs p <= 1).
Proof.
  intros HS HK.
  set (d1 := (ln (S / K) + (r + sigma ^ 2 / 2) * T) / (sigma * sqrt T)).
  pose proof (norm_cdf_range d1) as Hc. pose proof (norm_cdf_range (- d1)) as Hp.
  destruct (Rle_lt_dec T 0) as [HT | HT]; [| destruct (Rle_lt_dec sigma 0) as [Hs | Hs]].
  - split; eexists; (split; [apply delta_expired; assumption |]); cbn.
    + destruct (Rlt_dec K S); (split; [lra | apply Rabs_le; lra]).
    + destruct (Rlt_dec S K); (split; [lra | apply Rabs_le; lra]).
  - split; eexists; (split; [apply delta_no_vol; assumption |]);
      (split; [lra | apply Rabs_le; lra]).
  - split.
    + exists (norm_cdf d1). split; [| split; [lra | apply Rabs_le; lra]].
      apply (delta_normal S K T r sigma "call"); assumption || lra.
    + exists (- norm_cdf (- d1)). split; [| split; [lra | apply Rabs_le; lra]].
      apply (delta_normal S K T r sigma "put"); assumption || lra.
Qed.

End Delta.

(** ** The exponential change of measure of the normal distribution *)

Section GaussianTilt.

(** The distribution function of the standard normal law, by what defines
    it: its derivative is the Gaussian density and it vanishes at minus
    infinity. *)
Variable Phi : R -> R.
Hypothesis Phi_derivative : forall x, derivable_pt_lim Phi x (gaussian_pdf x).
Hypothesis Phi_nonneg : forall x, 0 <= Phi x.
Hypothesis Phi_vanishes : forall eps, 0 < eps -> exists M, forall x, x <= M -> Phi x < eps.

Variable s : R.
Hypothesis Hs : 0 < s.

Let gap (x : R) : R := exp (x * s - s ^ 2 / 2) * Phi x - Phi (x - s).

Lemma gaussian_pdf_shift (x : R) :
  exp (x * s - s ^ 2 / 2) * gaussian_pdf x = gaussian_pdf (x - s).
Proof.
  unfold gaussian_pdf. unfold Rdiv at 2 4. rewrite <- Rmult_assoc, <- exp_plus.
  f_equal. f_equal. field.
Qed.

Lemma affine_derivative (a c x : R) : derivable_pt_lim (fun y => y * a - c) x a.
Proof.
  intros eps Heps. exists (mkposreal 1 Rlt_0_1). intros h Hh _.
  replace (((x + h) * a - c - (x * a - c)) / h - a) with 0 by (field; assumption).
  rewrite Rabs_R0. exact Heps.
Qed.

(** The derivative of [gap] is non-negative: the two density terms cancel. *)
Lemma gap_derivative (x : R) :
  derivable_pt_lim gap x (s * exp (x * s - s ^ 2 / 2) * Phi x).
Proof.
  pose proof (derivable_pt_lim_comp (fun y => y * s - s ^ 2 / 2) exp x _ _
                (affine_derivative s (s ^ 2 / 2) x)
                (derivable_pt_lim_exp (x * s - s ^ 2 / 2))) as He.
  pose proof (derivable_pt_lim_comp (fun y => y * 1 - s) Phi x _ _
                (affine_derivative 1 s x) (Phi_derivative (x * 1 - s))) as Hp.
  pose proof (derivable_pt_lim_minus _ _ x _ _
                (derivable_pt_lim_mult _ _ x _ _ He (Phi_derivative x)) Hp) as H.
  unfold minus_fct, mult_fct, comp in H.
  replace (s * exp (x * s - s ^ 2 / 2) * Phi x)
    with (exp (x * s - s ^ 2 / 2) * s * Phi x
          + exp (x * s - s ^ 2 / 2) * gaussian_pdf x
          - gaussian_pdf (x - s) * 1).
  - intros eps Heps. destruct (H eps Heps) as [delta Hd]. exists delta.
    intros h Hh Hlt. specialize (Hd h Hh Hlt). unfold gap.
    replace ((x + h) * 1 - s) with (x + h - s) in Hd by ring.
    replace (x * 1 - s) with (x - s) in Hd by ring. exact Hd.
  - rewrite gaussian_pdf_shift. ring.
Qed.

Lemma gap_increasing (x y : R) : x <= y -> gap x <= gap y.
Proof.
  set (pr := fun z => exist (fun l => derivable_pt_abs gap z l) _ (gap_derivative z)).
  apply (nonneg_derivative_1 gap pr). intros z. cbn [derive_pt proj1_sig pr].
  apply Rmult_le_pos; [apply Rmult_le_pos |].
  - lra.
  - left. apply exp_pos.
  - apply Phi_nonneg.
Qed.

(** The change of measure: shifting the argument of the distribution
    function by [s > 0] costs at most the factor [exp (d * s - s^2 / 2)]. *)
Lemma gaussian_tilt (d : R) : Phi (d - s) <= exp (d * s - s ^ 2 / 2) * Phi d.
Proof.
  destruct (Rle_lt_dec 0 (gap d)) as [H | H]; [unfold gap in H; lra |].
  exfalso.
  destruct (Phi_vanishes (- gap d)) as [M HM]; [lra |].
  set (x := Rmin d (M + s)).
  assert (Hxd : x <= d) by apply Rmin_l.
  assert (HxM : x - s <= M) by (pose proof (Rmin_r d (M + s)); unfold x; lra).
  pose proof (gap_increasing x d Hxd) as Hmono.
  pose proof (HM _ HxM) as Hsmall.
  assert (0 <= exp (x * s - s ^ 2 / 2) * Phi x)
    by (apply Rmult_le_pos; [left; apply exp_pos | apply Phi_nonneg]).
  unfold gap in Hmono, Hsmall, H. lra.
Qed.

End GaussianTilt.

(** ** Put-call parity *)

Section Parity.

Variable norm_cdf : R -> R.

(** Two facts of the standard normal distribution function: its symmetry,
    and the exponential change of measure, which [gaussian_tilt] derives
    from the Gaussian density. *)
Hypothesis norm_cdf_sym : forall x, norm_cdf (- x) = 1 - norm_cdf x.
Hypothesis norm_cdf_tilt :
  forall d s, 0 < s -> norm_cdf (d - s) <= exp (d * s - s ^ 2 / 2) * norm_cdf d.

Abbreviation price := (BlackScholesPricer.price norm_cdf).

Section Unclamped.

Variables S K T r sigma : R.
Hypothesis HS : 0 < S.
Hypothesis HK : 0 < K.
Hypothesis HT : 0 < T.
Hypothesis Hsigma : 0 < sigma.

Let d1 := (ln (S / K) + (r + sigma ^ 2 / 2) * T) / (sigma * sqrt T).
Let d2 := d1 - sigma * sqrt T.

(** The closed forms are non-negative before they are clamped. *)
Lemma call_form_nonneg :
  0 <= S * norm_cdf d1 - K * exp (- r * T) * norm_cdf d2.
Proof.
  pose proof (norm_cdf_tilt d1 (sigma * sqrt T) (vol_sqrt_pos T sigma HT Hsigma)) as H.
  assert (He : exp (d1 * (sigma * sqrt T) - (sigma * sqrt T) ^ 2 / 2)
               = S / K * exp (r * T))
    by (apply exp_d1_times_vol; assumption).
  rewrite He in H. fold d2 in H.
  assert (Hd : K * exp (- r * T) * (S / K * exp (r * T)) = S).
  { replace (- r * T) with (- (r * T)) by ring. rewrite exp_Ropp.
    field. repeat split; try lra; apply Rgt_not_eq, exp_pos. }
  assert (0 < K * exp (- r * T))
    by (apply Rmult_lt_0_compat; [assumption | apply exp_pos]).
  apply (Rmult_le_compat_l (K * exp (- r * T))) in H; [| lra].
  rewrite <- Rmult_assoc, Hd in H. lra.
Qed.

Lemma put_form_nonneg :
  0 <= K * exp (- r * T) * norm_cdf (- d2) - S * norm_cdf (- d1).
Proof.
  pose proof (norm_cdf_tilt (- d2) (sigma * sqrt T) (vol_sqrt_pos T sigma HT Hsigma)) as H.
  assert (He : exp (- d2 * (sigma * sqrt T) - (sigma * sqrt T) ^ 2 / 2)
               = K / S * exp (- r * T))
    by (apply exp_neg_d1_times_vol; assumption).
  rewrite He in H.
  replace (- d2 - sigma * sqrt T) with (- d1) in H by (unfold d2; ring).
  apply (Rmult_le_compat_l S) in H; [| lra].
  replace (S * (K / S * exp (- r * T) * norm_cdf (- d2)))
    with (K * exp (- r * T) * norm_cdf (- d2)) in H by (field; lra).
  lra.
Qed.

Lemma forms_parity :
  (S * norm_cdf d1 - K * exp (- r * T) * norm_cdf d2)
  - (K * exp (- r * T) * norm_cdf (- d2) - S * norm_cdf (- d1))
  = S - K * exp (- r * T).
Proof. rewrite !norm_cdf_sym. ring. Qed.

End Unclamped.

(** C6. Put-call parity: for S > 0, K > 0, T > 0 and sigma > 0 the
    analytical call price minus the analytical put price is
    S - K * exp (- r * T), in real arithmetic. *)
Theorem put_call_parity (S K T r sigma : R) :
  0 < S -> 0 < K -> 0 < T -> 0 < sigma ->
  exists call put,
    price S K T r sigma "call" = Return call /\
    price S K T r sigma "put" = Return put /\
    call - put = S - K * exp (- r * T).
Proof.
  intros HS HK HT Hs.
  pose proof (price_normal norm_cdf S K T r sigma "call") as Hc.
  pose proof (price_normal norm_cdf S K T r sigma "put") as Hp.
  cbv zeta in Hc, Hp. rewrite is_call_call in Hc. rewrite is_call_put in Hp.
  eexists. eexists. split; [apply Hc; lra |]. split; [apply Hp; lra |].
  rewrite !Rmax_left by
    (apply call_form_nonneg || apply put_form_nonneg; assumption).
  apply forms_parity.
Qed.

End Parity.

(** ** Arrays: masks, selections and assignments over one list of rows *)

Section Arrays.

Context {X A B C : Type}.

Lemma map2_map (f : A -> B -> C) (g : X -> A) (h : X -> B) (l : list X) :
  map2 f (map g l) (map h l) = map (fun x => f (g x) (h x)) l.
Proof. induction l as [| x l IH]; cbn; [reflexivity | rewrite IH; reflexivity]. Qed.

Lemma compress_map (p : X -> bool) (g : X -> A) (l : list X) :
  compress (map p l) (map g l) = map g (compress (map p l) l).
Proof.
  induction l as [| x l IH]; cbn; [reflexivity |].
  destruct (p x); cbn; rewrite IH; reflexivity.
Qed.

Lemma assign_map (p : X -> bool) (q v : X -> A) (l : list X) :
  assign (map p l) (map q l) (map v (compress (map p l) l)) =
  map (fun x => if p x then v x else q x) l.
Proof.
  induction l as [| x l IH]; cbn; [reflexivity |].
  destruct (p x); cbn; rewrite IH; reflexivity.
Qed.

Lemma any_map_false (p : X -> bool) (l : list X) :
  any (map p l) = false -> forall x, In x l -> p x = false.
Proof.
  unfold any. induction l as [| y l IH]; cbn; intros H x Hx; [contradiction |].
  apply orb_false_elim in H. destruct H as [Hy Hl].
  destruct Hx as [<- | Hx]; [assumption | apply IH; assumption].
Qed.

End Arrays.

Lemma zeros_like_map {X : Type} (g : X -> R) (l : list X) :
  repeat 0 (List.length (map g l)) = map (fun _ => 0) l.
Proof.
  rewrite length_map.
  induction l as [| x l IH]; cbn; [reflexivity | rewrite IH; reflexivity].
Qed.

Lemma cast_float64 (l : list R) : map (cast float64) l = l.
Proof. apply map_id. Qed.

(** Four arrays of one length are the four columns of one list of rows. *)
Lemma columns_of_rows (S K T sigma : list R) :
  List.length K = List.length S ->
  List.length T = List.length S ->
  List.length sigma = List.length S ->
  exists rows : list (R * R * R * R),
    S = map (fun x => fst (fst (fst x))) rows /\
    K = map (fun x => snd (fst (fst x))) rows /\
    T = map (fun x => snd (fst x)) rows /\
    sigma = map (fun x => snd x) rows.
Proof.
  revert K T sigma.
  induction S as [| s S IH]; intros [| k K] [| t T] [| v sigma]; cbn;
    intros HK HT Hv; try discriminate.
  - exists []. repeat split.
  - injection HK as HK. injection HT as HT. injection Hv as Hv.
    destruct (IH K T sigma HK HT Hv) as (rows & -> & -> & -> & ->).
    exists ((s, k, t, v) :: rows). repeat split.
Qed.

(** ** The vectorized analytical price *)

Section Vectorized.

Variable norm_cdf : R -> R.

Abbreviation price := (BlackScholesPricer.price norm_cdf).
Abbreviation price_vectorized := (BlackScholesPricer.price_vectorized norm_cdf).

Abbreviation rS := (fun x : R * R * R * R => fst (fst (fst x))).
Abbreviation rK := (fun x : R * R * R * R => snd (fst (fst x))).
Abbreviation rT := (fun x : R * R * R * R => snd (fst x)).
Abbreviation rsigma := (fun x : R * R * R * R => snd x).

(** One element, in each of the three regions of the masks. *)
Ltac region T sigma :=
  destruct (Rle_lt_dec T 0) as [HT | HT];
  [ rewrite ?(gtb_false T 0), ?(leb_true T 0) by assumption
  | rewrite ?(gtb_true T 0), ?(leb_false T 0) by assumption;
    destruct (Rle_lt_dec sigma 0) as [Hs | Hs];
    [ rewrite ?(gtb_false sigma 0), ?(leb_true sigma 0) by assumption
    | rewrite ?(gtb_true sigma 0), ?(leb_false sigma 0) by assumption ] ];
  cbn [andb].

Lemma price_vectorized_rows (rows : list (R * R * R * R)) (r : R) (option_type : string) :
  (forall x, In x rows -> rK x <> 0) ->
  map Return
    (values
       (price_vectorized (mk_ndarray float64 (map rS rows)) (map rK rows)
          (map rT rows) r (map rsigma rows) option_type)) =
  map (fun x => price (rS x) (rK x) (rT x) r (rsigma x) option_type) rows.
Proof.
  intros HK. unfold BlackScholesPricer.price_vectorized.
  cbv zeta. unfold maximum0_array, setitem.
  destruct (is_call option_type) eqn:Hcall;
    destruct (any _) eqn:Hany;
    unfold zeros_like; cbn [values dtype_of] in *;
    rewrite !cast_float64, zeros_like_map;
    unfold mask_and, maximum0, sub, mul, add, divide, sadd, smul in *;
    repeat (rewrite ?map_map, ?map2_map, ?compress_map, ?assign_map; cbv beta);
    rewrite ?map_map, ?map2_map in Hany;
    rewrite ?map_map; apply map_ext_in; intros [[[S K] T] sigma] Hx;
    specialize (HK _ Hx); cbn [fst snd] in *;
    try (apply any_map_false with (x := (S, K, T, sigma)) in Hany;
         [cbn [fst snd] in Hany | assumption]);
    unfold BlackScholesPricer.price; rewrite Hcall;
    region T sigma; rewrite ?max0_idem, ?(div_nonzero _ _ HK);
    cbn [bind]; try reflexivity;
    rewrite (gtb_true T 0), (gtb_true sigma 0) in Hany by assumption;
    discriminate Hany.
Qed.

(** X28. For float arrays S, K, T, sigma of one length with every S[i] > 0
    and K[i] > 0, the vectorized analytical price is a float array of that
    length whose i-th element is the scalar analytical price of
    (S[i], K[i], T[i], r, sigma[i], option_type). *)
Theorem price_vectorized_elementwise (S K T : list R) (r : R) (sigma : list R)
    (option_type : string) :
  List.length K = List.length S ->
  List.length T = List.length S ->
  List.length sigma = List.length S ->
  Forall (fun s => 0 < s) S ->
  Forall (fun k => 0 < k) K ->
  let prices := price_vectorized (mk_ndarray float64 S) K T r sigma option_type in
  dtype_of prices = float64 /\
  List.length (values prices) = List.length S /\
  forall i, (i < List.length S)%nat ->
    price (nth i S 0) (nth i K 0) (nth i T 0) r (nth i sigma 0) option_type =
    Return (nth i (values prices) 0).
Proof.
  intros HlK HlT Hls HS HK prices. split; [| unfold prices; clear prices].
  { unfold prices, BlackScholesPricer.price_vectorized. cbv zeta.
    destruct (is_call option_type), (any _); reflexivity. }
  destruct (columns_of_rows S K T sigma HlK HlT Hls) as (rows & -> & -> & -> & ->).
  assert (Hrows : forall x, In x rows -> rK x <> 0).
  { intros x Hx. rewrite Forall_forall in HK.
    apply Rgt_not_eq, HK, in_map_iff. exists x. split; [reflexivity | assumption]. }
  pose proof (price_vectorized_rows rows r option_type Hrows) as Heq.
  split.
  - apply (f_equal (@List.length _)) in Heq. rewrite !length_map in Heq.
    rewrite length_map. exact Heq.
  - intros i Hi. rewrite length_map in Hi.
    apply (f_equal (fun l => nth i l (Return 0))) in Heq.
    rewrite (map_nth Return) in Heq. rewrite Heq.
    set (dflt := (0, 0, 0, 0)).
    rewrite (nth_indep _ _ (price (rS dflt) (rK dflt) (rT dflt) r (rsigma dflt) option_type))
      by (rewrite length_map; assumption).
    rewrite (map_nth (fun x => price (rS x) (rK x) (rT x) r (rsigma x) option_type)).
    rewrite (map_nth rS rows dflt i : nth i (map rS rows) 0 = _).
    rewrite (map_nth rK rows dflt i : nth i (map rK rows) 0 = _).
    rewrite (map_nth rT rows dflt i : nth i (map rT rows) 0 = _).
    rewrite (map_nth rsigma rows dflt i : nth i (map rsigma rows) 0 = _).
    reflexivity.
Qed.

End Vectorized.

Lemma trunc_half : trunc (1 / 2) = 0.
Proof.
  unfold trunc. destruct (Rle_dec 0 (1 / 2)) as [_ | H]; [| lra].
  assert (Hup : 1%Z = up (1 / 2)) by (apply tech_up; lra).
  unfold Int_part. rewrite <- Hup. reflexivity.
Qed.

(** C7, at the integer array S = [100] with K = [99.5], T = [0],
    sigma = [0.2], r = 0.05, for a call.  The scalar price of
    (100, 99.5, 0, 0.05, 0.2) is 0.5.  The vectorized price stores 0.5 into
    the array that np.zeros_like(S) made with the integer type of S, where
    it becomes 0, and returns the integer array [0]. *)
Theorem price_vectorized_truncates :
  BlackScholesPricer.price tail_cdf 100 (199 / 2) 0 (1 / 20) (1 / 5) "call"
    = Return (1 / 2) /\
  BlackScholesPricer.price_vectorized tail_cdf
    (mk_ndarray int64 [100]) [199 / 2] [0] (1 / 20) [1 / 5] "call"
    = mk_ndarray int64 [0].
Proof.
  split.
  - rewrite price_expired by lra. cbn. rewrite Rmax_left by lra. f_equal. lra.
  - unfold BlackScholesPricer.price_vectorized. cbv zeta.
    rewrite is_call_call.
    unfold mask_and, any. cbn [map map2 existsb].
    rewrite (leb_true 0 0), (gtb_false 0 0) by lra.
    cbn [andb orb compress sub map2 maximum0 map values].
    unfold maximum0_array, setitem, zeros_like.
    cbn [values dtype_of List.length repeat map assign cast maximum0].
    unfold max0. replace (100 - 199 / 2) with (1 / 2) by lra.
    rewrite (Rmax_left (1 / 2) 0) by lra. rewrite trunc_half.
    rewrite Rmax_left by lra. reflexivity.
Qed.

(** ** The Monte Carlo price: which branch answers *)

Section MonteCarloBranches.

Variable draws : nat -> nat -> R.
Variables S K T r sigma : R.
Variable option_type : string.
Variables n_simulations n_steps : Z.

Abbreviation mc_price := (MonteCarloPricer.price draws S K T r sigma option_type).

Lemma mc_expired :
  T <= 0 ->
  mc_price n_simulations n_steps =
  Return (Num (if is_call option_type then Rmax (S - K) 0 else Rmax (K - S) 0),
          Num 0).
Proof.
  intros HT. unfold MonteCarloPricer.price. rewrite (leb_true _ _ HT).
  destruct (is_call option_type); reflexivity.
Qed.

Lemma mc_no_vol :
  0 < T -> sigma <= 0 ->
  mc_price n_simulations n_steps =
  Return (Num (if is_call option_type
               then Rmax (S - K * exp (- r * T)) 0
               else Rmax (K * exp (- r * T) - S) 0),
          Num 0).
Proof.
  intros HT Hs. unfold MonteCarloPricer.price.
  rewrite (leb_false _ _ HT), (leb_true _ _ Hs).
  destruct (is_call option_type); reflexivity.
Qed.

Lemma mc_negative_dimension :
  0 < T -> 0 < sigma -> n_steps <> 0%Z ->
  (n_simulations < 0 \/ n_steps < 0)%Z ->
  mc_price n_simulations n_steps = Raise ValueError.
Proof.
  intros HT Hs Hn Hneg. unfold MonteCarloPricer.price.
  rewrite (leb_false _ _ HT), (leb_false _ _ Hs).
  rewrite div_nonzero by (apply not_0_IZR; assumption). cbn [bind].
  unfold MonteCarloPricer.random_normal.
  replace ((n_simulations <? 0) || (n_steps <? 0))%Z with true; [reflexivity |].
  symmetry. apply orb_true_iff. rewrite !Z.ltb_lt. exact Hneg.
Qed.

Abbreviation simulated_payoffs :=
  (MonteCarloPricer.simulated_payoffs draws S K T r sigma option_type
     n_simulations n_steps).

Lemma mc_simulated :
  0 < T -> 0 < sigma -> n_steps <> 0%Z ->
  (0 <= n_simulations)%Z -> (0 <= n_steps)%Z ->
  mc_price n_simulations n_steps =
  Return (mean simulated_payoffs,
          fdiv (std simulated_payoffs) (sqrt (IZR n_simulations))).
Proof.
  intros HT Hs Hn Hsim Hsteps. unfold MonteCarloPricer.price.
  rewrite (leb_false _ _ HT), (leb_false _ _ Hs).
  rewrite div_nonzero by (apply not_0_IZR; assumption). cbn [bind].
  unfold MonteCarloPricer.random_normal.
  replace ((n_simulations <? 0) || (n_steps <? 0))%Z with false; [reflexivity |].
  symmetry. apply orb_false_iff. rewrite !Z.ltb_ge. split; assumption.
Qed.

End MonteCarloBranches.

(** ** The simulated sample *)

Lemma length_map2 {A B C : Type} (f : A -> B -> C) (a : list A) (b : list B) :
  List.length a = List.length b -> List.length (map2 f a b) = List.length a.
Proof.
  revert b. induction a as [| x a IH]; intros [| y b]; cbn; intros H;
    try discriminate; [reflexivity |].
  injection H as H. rewrite IH by assumption. reflexivity.
Qed.

Lemma repeat_map {X : Type} (c : R) (l : list X) :
  repeat c (List.length l) = map (fun _ => c) l.
Proof. induction l as [| x l IH]; cbn; [reflexivity | rewrite IH; reflexivity]. Qed.

(** The loop over the steps, row by row: every row accumulates its own
    shocks on top of the initial value. *)
Lemma log_ST_loop (Zm : list (list R)) (c : R) (steps : list nat) (f : list R -> R) :
  fold_left (fun log_ST step => add log_ST (smul c (MonteCarloPricer.column Zm step)))
    steps (map f Zm) =
  map (fun row => fold_left (fun a step => a + c * nth step row 0) steps (f row)) Zm.
Proof.
  revert f. induction steps as [| step steps IH]; intros f; cbn [fold_left].
  - reflexivity.
  - unfold add at 2, smul, MonteCarloPricer.column.
    rewrite map_map, map2_map. apply (IH (fun row => f row + c * nth step row 0)).
Qed.

Lemma shocks_sum (c x : R) (row : list R) (steps : list nat) :
  fold_left (fun a step => a + c * nth step row 0) steps x =
  x + c * sum (map (fun step => nth step row 0) steps).
Proof.
  revert x. induction steps as [| step steps IH]; intros x; cbn.
  - unfold sum. cbn. ring.
  - rewrite IH. unfold sum. cbn. ring.
Qed.

(** What the multi-step branch computes: the drift of one step only, and the
    shocks of all the steps. *)
Lemma ST_multi_step (Zm : list (list R)) (S T r sigma dt : R) (n_steps : Z) :
  n_steps <> 1%Z ->
  MonteCarloPricer.ST Zm S T r sigma dt n_steps =
  map (fun row =>
         exp (ln S + (r - 0.5 * sigma ^ 2) * dt
              + sigma * sqrt dt
                * sum (map (fun step => nth step row 0) (seq 0 (Z.to_nat n_steps)))))
    Zm.
Proof.
  intros Hn. unfold MonteCarloPricer.ST.
  apply Z.eqb_neq in Hn. rewrite Hn. cbv zeta.
  rewrite repeat_map, log_ST_loop, map_map.
  apply map_ext. intros row. rewrite shocks_sum. reflexivity.
Qed.

Lemma ST_single_step (Zm : list (list R)) (S T r sigma dt : R) :
  MonteCarloPricer.ST Zm S T r sigma dt 1 =
  map (fun row => S * exp ((r - 0.5 * sigma ^ 2) * T + sigma * sqrt T * nth 0 row 0)) Zm.
Proof.
  unfold MonteCarloPricer.ST, smul, sadd, MonteCarloPricer.column. cbn [Z.eqb Pos.eqb].
  rewrite !map_map. reflexivity.
Qed.

Lemma length_ST (Zm : list (list R)) (S T r sigma dt : R) (n_steps : Z) :
  List.length (MonteCarloPricer.ST Zm S T r sigma dt n_steps) = List.length Zm.
Proof.
  destruct (Z.eq_dec n_steps 1) as [-> | Hn].
  - rewrite ST_single_step. apply length_map.
  - rewrite ST_multi_step by assumption. apply length_map.
Qed.

Lemma length_matrix (draws : nat -> nat -> R) (n m : nat) :
  List.length (MonteCarloPricer.matrix draws n m) = n.
Proof. unfold MonteCarloPricer.matrix. rewrite length_map. apply length_seq. Qed.

Lemma length_discounted_payoffs (ST : list R) (K T r : R) (option_type : string) :
  List.length (MonteCarloPricer.discounted_payoffs ST K T r option_type) = List.length ST.
Proof.
  unfold MonteCarloPricer.discounted_payoffs, smul, maximum0.
  destruct (is_call option_type); rewrite !length_map; reflexivity.
Qed.

Lemma discounted_payoffs_nonneg (ST : list R) (K T r : R) (option_type : string) :
  Forall (fun x => 0 <= x) (MonteCarloPricer.discounted_payoffs ST K T r option_type).
Proof.
  unfold MonteCarloPricer.discounted_payoffs, smul, maximum0.
  apply Forall_forall. intros x Hx.
  destruct (is_call option_type);
    rewrite !map_map in Hx; apply in_map_iff in Hx; destruct Hx as (st & <- & _);
    (apply Rmult_le_pos; [left; apply exp_pos | apply max0_nonneg]).
Qed.

Lemma sum_nonneg (a : list R) : Forall (fun x => 0 <= x) a -> 0 <= sum a.
Proof.
  induction 1 as [| x a Hx Ha IH]; cbn; [lra |].
  unfold sum in IH. lra.
Qed.

Lemma mean_nonempty (a : list R) :
  a <> [] -> mean a = Num (sum a / INR (List.length a)).
Proof. destruct a; [contradiction | reflexivity]. Qed.

Lemma std_nonempty (a : list R) :
  a <> [] ->
  std a =
  Num (sqrt (sum (map (fun x => (x - sum a / INR (List.length a)) ^ 2) a)
             / INR (List.length a))).
Proof. destruct a; [contradiction | reflexivity]. Qed.

Lemma nonempty_length {A : Type} (a : list A) : (0 < List.length a)%nat -> a <> [].
Proof. destruct a; cbn; [lia | discriminate]. Qed.

Lemma length_simulated_payoffs (draws : nat -> nat -> R) (S K T r sigma : R)
    (option_type : string) (n_simulations n_steps : Z) :
  List.length
    (MonteCarloPricer.simulated_payoffs draws S K T r sigma option_type
       n_simulations n_steps) = Z.to_nat n_simulations.
Proof.
  unfold MonteCarloPricer.simulated_payoffs.
  rewrite length_discounted_payoffs, length_ST. apply length_matrix.
Qed.

(** ** Counts that are not positive *)

Section Counts.

Variable draws : nat -> nat -> R.
Variables S K T r sigma : R.
Variable option_type : string.

Abbreviation mc_price := (MonteCarloPricer.price draws S K T r sigma option_type).

(** C5, as the code has it.  The Monte Carlo price never checks and never
    clamps n_simulations and n_steps.  When T <= 0 or sigma <= 0 it returns
    the deterministic value with a zero standard error whatever the two
    counts are.  When T > 0, sigma > 0 and n_steps <> 0: a negative count is
    refused by the generator of the draws, which raises ValueError; otherwise
    n_simulations = 0 returns (nan, nan). *)
Theorem price_unchecked_counts (n_simulations n_steps : Z) :
  (T <= 0 ->
     mc_price n_simulations n_steps =
     Return (Num (if is_call option_type then Rmax (S - K) 0 else Rmax (K - S) 0),
             Num 0)) /\
  (0 < T -> sigma <= 0 ->
     mc_price n_simulations n_steps =
     Return (Num (if is_call option_type
                  then Rmax (S - K * exp (- r * T)) 0
                  else Rmax (K * exp (- r * T) - S) 0),
             Num 0)) /\
  (0 < T -> 0 < sigma -> n_steps <> 0%Z ->
     ((n_simulations < 0 \/ n_steps < 0)%Z ->
        mc_price n_simulations n_steps = Raise ValueError) /\
     (n_simulations = 0%Z -> (0 < n_steps)%Z ->
        mc_price n_simulations n_steps = Return (NaN, NaN))).
Proof.
  split; [| split].
  - apply mc_expired.
  - apply mc_no_vol.
  - intros HT Hs Hn. split.
    + apply mc_negative_dimension; assumption.
    + intros -> Hpos. rewrite mc_simulated by (assumption || lia).
      pose proof (length_simulated_payoffs draws S K T r sigma option_type 0 n_steps) as Hl.
      destruct (MonteCarloPricer.simulated_payoffs _ _ _ _ _ _ _ _ _);
        [reflexivity | discriminate Hl].
Qed.

End Counts.

(** ** Non-negative prices *)

Section NonNegative.

Variable norm_cdf : R -> R.

Lemma price_nonneg (S K T r sigma : R) (option_type : string) :
  K <> 0 ->
  exists p, BlackScholesPricer.price norm_cdf S K T r sigma option_type = Return p
            /\ 0 <= p.
Proof.
  intros HK.
  destruct (Rle_lt_dec T 0) as [HT | HT]; [| destruct (Rle_lt_dec sigma 0) as [Hs | Hs]].
  - eexists. split; [apply price_expired; assumption |].
    destruct (is_call option_type); apply Rmax_r.
  - eexists. split; [apply price_no_vol; assumption |].
    destruct (is_call option_type); apply Rmax_r.
  - eexists. split; [apply price_normal; assumption |].
    destruct (is_call option_type); apply Rmax_r.
Qed.

Lemma mc_price_nonneg (draws : nat -> nat -> R) (S K T r sigma : R)
    (option_type : string) (n_simulations n_steps : Z) :
  (1 <= n_simulations)%Z -> (1 <= n_steps)%Z ->
  exists p e,
    MonteCarloPricer.price draws S K T r sigma option_type n_simulations n_steps
    = Return (Num p, Num e) /\ 0 <= p.
Proof.
  intros Hsim Hsteps.
  destruct (Rle_lt_dec T 0) as [HT | HT]; [| destruct (Rle_lt_dec sigma 0) as [Hs | Hs]].
  - eexists. eexists. split; [apply mc_expired; assumption |].
    destruct (is_call option_type); apply Rmax_r.
  - eexists. eexists. split; [apply mc_no_vol; assumption |].
    destruct (is_call option_type); apply Rmax_r.
  - pose proof (length_simulated_payoffs draws S K T r sigma option_type
                  n_simulations n_steps) as Hl.
    assert (Hne : MonteCarloPricer.simulated_payoffs draws S K T r sigma option_type
                    n_simulations n_steps <> [])
      by (apply nonempty_length; lia).
    eexists. eexists. split.
    + rewrite mc_simulated by (assumption || lia).
      rewrite (mean_nonempty _ Hne), (std_nonempty _ Hne). reflexivity.
    + apply Rmult_le_pos.
      * apply sum_nonneg, discounted_payoffs_nonneg.
      * left. apply Rinv_0_lt_compat. rewrite Hl. apply lt_0_INR. lia.
Qed.

(** C9. Non-negativity: for S > 0 and K > 0 and any T, r, sigma and option
    type, the analytical price is a number >= 0; and for any draws and any
    positive counts the Monte Carlo estimated price is a number >= 0, in
    every branch. *)
Theorem prices_nonneg (draws : nat -> nat -> R) (S K T r sigma : R)
    (option_type : string) (n_simulations n_steps : Z) :
  0 < S -> 0 < K -> (1 <= n_simulations)%Z -> (1 <= n_steps)%Z ->
  (exists p, BlackScholesPricer.price norm_cdf S K T r sigma option_type = Return p
             /\ 0 <= p) /\
  (exists p e,
     MonteCarloPricer.price draws S K T r sigma option_type n_simulations n_steps
     = Return (Num p, Num e) /\ 0 <= p).
Proof.
  intros HS HK Hsim Hsteps. split.
  - apply price_nonneg. lra.
  - apply mc_price_nonneg; assumption.
Qed.

End NonNegative.

(** ** Option types other than ["call"] and ["put"] *)

Section OptionType.

Variables norm_cdf norm_pdf : R -> R.
Variable draws : nat -> nat -> R.

Ltac as_put H :=
  rewrite (is_call_other _ H); change (is_call "put") with false; reflexivity.

(** C4, as the code has it.  No operation checks the option type: each one
    compares it with "call" and takes the put branch otherwise, so that a
    type that is neither "call" nor "put" gives, in every operation, the
    result of a put. *)
Theorem unrecognized_type_is_put (option_type : string) (S K T r sigma : R)
    (n_simulations n_steps : Z) (Ss : ndarray) (Ks Ts sigmas : list R) :
  option_type <> "call"%string ->
  BlackScholesPricer.price norm_cdf S K T r sigma option_type =
    BlackScholesPricer.price norm_cdf S K T r sigma "put" /\
  BlackScholesPricer.price_vectorized norm_cdf Ss Ks Ts r sigmas option_type =
    BlackScholesPricer.price_vectorized norm_cdf Ss Ks Ts r sigmas "put" /\
  GreeksCalculator.delta norm_cdf S K T r sigma option_type =
    GreeksCalculator.delta norm_cdf S K T r sigma "put" /\
  GreeksCalculator.theta norm_cdf norm_pdf S K T r sigma option_type =
    GreeksCalculator.theta norm_cdf norm_pdf S K T r sigma "put" /\
  GreeksCalculator.rho norm_cdf S K T r sigma option_type =
    GreeksCalculator.rho norm_cdf S K T r sigma "put" /\
  GreeksCalculator.all_greeks norm_cdf norm_pdf S K T r sigma option_type =
    GreeksCalculator.all_greeks norm_cdf norm_pdf S K T r sigma "put" /\
  MonteCarloPricer.price draws S K T r sigma option_type n_simulations n_steps =
    MonteCarloPricer.price draws S K T r sigma "put" n_simulations n_steps.
Proof.
  intros H.
  assert (Hdelta : GreeksCalculator.delta norm_cdf S K T r sigma option_type =
                   GreeksCalculator.delta norm_cdf S K T r sigma "put")
    by (unfold GreeksCalculator.delta; as_put H).
  assert (Htheta : GreeksCalculator.theta norm_cdf norm_pdf S K T r sigma option_type =
                   GreeksCalculator.theta norm_cdf norm_pdf S K T r sigma "put")
    by (unfold GreeksCalculator.theta; as_put H).
  assert (Hrho : GreeksCalculator.rho norm_cdf S K T r sigma option_type =
                 GreeksCalculator.rho norm_cdf S K T r sigma "put")
    by (unfold GreeksCalculator.rho; as_put H).
  repeat split; try assumption.
  - unfold BlackScholesPricer.price. as_put H.
  - unfold BlackScholesPricer.price_vectorized. as_put H.
  - unfold GreeksCalculator.all_greeks. rewrite Hdelta, Htheta, Hrho. reflexivity.
  - unfold MonteCarloPricer.price, MonteCarloPricer.discounted_payoffs. as_put H.
Qed.

End OptionType.

(** ** The standard error *)



Section StandardError.

Variable draws : nat -> nat -> R.
Variables S K T r sigma : R.
Variable option_type : string.
Variables n_simulations n_steps : Z.

Abbreviation discounted :=
  (MonteCarloPricer.simulated_payoffs draws S K T r sigma option_type
     n_simulations n_steps).


End StandardError.

(** ** Evaluations at sample inputs *)



Lemma sample_ST_two_steps :
  MonteCarloPricer.ST (MonteCarloPricer.matrix (constant_draws 0) 1 2) 1 2 1 1 (2 / 2) 2
  = [exp (1 / 2)].
Proof.
  rewrite ST_multi_step by discriminate.
  change (Z.to_nat 2) with 2%nat. cbn. unfold constant_draws, sum. cbn.
  rewrite ln_1. f_equal. f_equal. lra.
Qed.

(** C2, at S = 1, T = 2, r = 1, sigma = 1, n_steps = 2 and draws that are
    all 0.  The claim gives the terminal log-price
    ln 1 + (1 - 1/2) * 2 + 0 = 1, as the single-step formula does; the code
    adds the drift of one step only and ends at the log-price 1/2, which
    shows in the price of the call of strike 1. *)
Theorem multi_step_drift_of_one_step :
  MonteCarloPricer.ST (MonteCarloPricer.matrix (constant_draws 0) 1 2) 1 2 1 1 (2 / 2) 2
    = [exp (1 / 2)] /\
  MonteCarloPricer.ST (MonteCarloPricer.matrix (constant_draws 0) 1 1) 1 2 1 1 (2 / 1) 1
    = [exp 1] /\
  exp (1 / 2) <> exp (ln 1 + (1 - 1 ^ 2 / 2) * 2 + 1 * sqrt (2 / 2) * (0 + 0)) /\
  MonteCarloPricer.price (constant_draws 0) 1 1 2 1 1 "call" 1 2
    = Return (Num (exp (- 2) * (exp (1 / 2) - 1)), Num 0).
Proof.
  assert (Hlt : 1 < exp (1 / 2))
    by (pose proof (exp_increasing 0 (1 / 2)) as H; rewrite exp_0 in H; lra).
  split; [exact sample_ST_two_steps | split; [| split]].
  - rewrite ST_single_step. cbn. unfold constant_draws.
    f_equal. rewrite Rmult_1_l. f_equal. lra.
  - intros H. apply exp_inv in H. rewrite ln_1 in H. lra.
  - rewrite mc_simulated by (lra || lia).
    unfold MonteCarloPricer.simulated_payoffs.
    change (Z.to_nat 1) with 1%nat. change (Z.to_nat 2) with 2%nat.
    change (IZR 2) with 2. rewrite sample_ST_two_steps.
    unfold MonteCarloPricer.discounted_payoffs, smul, maximum0, max0.
    cbn. rewrite Rmax_left by lra.
    replace (- (1) * 2) with (- 2) by lra. f_equal. f_equal.
    + f_equal. field.
    + f_equal. rewrite sqrt_1.
      match goal with
      | |- sqrt ?v / 1 = 0 => replace v with 0 by field
      end.
      rewrite sqrt_0. lra.
Qed.

(** Against C4 as stated.  With the option type "straddle" the analytical
    price, Delta and the Monte Carlo price of S = 2, K = 3, T = 0 return the
    values of a put. *)
Lemma unrecognized_type_returns :
  BlackScholesPricer.price tail_cdf 2 3 0 (1 / 20) (1 / 5) "straddle" = Return 1 /\
  GreeksCalculator.delta tail_cdf 2 3 0 (1 / 20) (1 / 5) "straddle" = Return (- 1) /\
  MonteCarloPricer.price (constant_draws 0) 2 3 0 (1 / 20) (1 / 5) "straddle" 1000 1
    = Return (Num 1, Num 0).
Proof.
  split; [| split].
  - rewrite price_expired by lra. cbn. rewrite Rmax_left by lra. f_equal. lra.
  - rewrite delta_expired by lra. cbn. destruct (Rlt_dec 2 3); [reflexivity | lra].
  - rewrite mc_expired by lra. cbn. rewrite Rmax_left by lra. do 3 f_equal. lra.
Qed.

(** Against C5 as stated.  At T = 0 the Monte Carlo price of S = 3, K = 2
    returns (1, 0) with both counts at 0, and with both counts negative. *)
Lemma nonpositive_counts_return :
  MonteCarloPricer.price (constant_draws 0) 3 2 0 (1 / 20) (1 / 5) "call" 0 0
    = Return (Num 1, Num 0) /\
  MonteCarloPricer.price (constant_draws 0) 3 2 0 (1 / 20) (1 / 5) "call" (-5) (-3)
    = Return (Num 1, Num 0).
Proof.
  split; rewrite mc_expired by lra; cbn; rewrite Rmax_left by lra;
    do 3 f_equal; lra.
Qed.

(** ** The theorems at a quoted option: S = 100, K = 105, T = 1/4, r = 5%,
    sigma = 20% *)

Lemma price_three_way_witness :
  BlackScholesPricer.price tail_cdf 100 105 0 (1 / 20) (1 / 5) "put"
  = Return (Rmax (105 - 100) 0).
Proof.
  destruct (price_three_way tail_cdf 100 105 0 (1 / 20) (1 / 5)) as [H _];
    [lra | lra |].
  apply H. lra.
Defined.

Lemma delta_three_way_witness :
  GreeksCalculator.delta tail_cdf 100 105 0 (1 / 20) (1 / 5) "put" = Return (- 1).
Proof.
  destruct (delta_three_way tail_cdf 100 105 0 (1 / 20) (1 / 5)) as [H _];
    [lra | lra |].
  apply H; lra.
Defined.

Lemma delta_bounds_witness :
  exists c,
    GreeksCalculator.delta tail_cdf 100 105 (1 / 4) (1 / 20) (1 / 5) "call" = Return c
    /\ 0 <= c <= 1 /\ Rabs c <= 1.
Proof.
  apply (delta_bounds tail_cdf tail_cdf_range 100 105 (1 / 4) (1 / 20) (1 / 5)); lra.
Defined.

Lemma put_call_parity_witness :
  exists call put,
    BlackScholesPricer.price tail_cdf 100 105 (1 / 4) (1 / 20) (1 / 5) "call" = Return call /\
    BlackScholesPricer.price tail_cdf 100 105 (1 / 4) (1 / 20) (1 / 5) "put" = Return put /\
    call - put = 100 - 105 * exp (- (1 / 20) * (1 / 4)).
Proof.
  apply (put_call_parity tail_cdf tail_cdf_sym tail_cdf_tilt); lra.
Defined.

Lemma price_vectorized_elementwise_witness :
  BlackScholesPricer.price tail_cdf 100 105 0 (1 / 20) (1 / 5) "call" =
  Return (nth 1
            (values
               (BlackScholesPricer.price_vectorized tail_cdf
                  (mk_ndarray float64 [100; 100]) [90; 105] [1 / 4; 0] (1 / 20)
                  [1 / 5; 1 / 5] "call")) 0).
Proof.
  destruct (price_vectorized_elementwise tail_cdf
              [100; 100] [90; 105] [1 / 4; 0] (1 / 20) [1 / 5; 1 / 5] "call")
    as (_ & _ & H); try reflexivity; try (repeat constructor; lra).
  apply (H 1%nat). cbn. lia.
Defined.

Lemma prices_nonneg_witness :
  (exists p,
     BlackScholesPricer.price tail_cdf 100 105 (1 / 4) (1 / 20) (1 / 5) "call" = Return p
     /\ 0 <= p) /\
  (exists p e,
     MonteCarloPricer.price (constant_draws 0) 100 105 (1 / 4) (1 / 20) (1 / 5) "call" 4 1
     = Return (Num p, Num e) /\ 0 <= p).
Proof.
  apply (prices_nonneg tail_cdf); lra || lia.
Defined.


Lemma unrecognized_type_is_put_witness :
  BlackScholesPricer.price tail_cdf 100 105 (1 / 4) (1 / 20) (1 / 5) "straddle" =
  BlackScholesPricer.price tail_cdf 100 105 (1 / 4) (1 / 20) (1 / 5) "put".
Proof.
  destruct (unrecognized_type_is_put tail_cdf gaussian_pdf (constant_draws 0)
              "straddle" 100 105 (1 / 4) (1 / 20) (1 / 5) 4 1
              (mk_ndarray float64 []) [] [] []) as [H _];
    [discriminate | exact H].
Defined.

Lemma price_unchecked_counts_witness :
  MonteCarloPricer.price (constant_draws 0) 100 105 (1 / 4) (1 / 20) (1 / 5) "call" (-4) 1
  = Raise ValueError.
Proof.
  destruct (price_unchecked_counts (constant_draws 0) 100 105 (1 / 4) (1 / 20) (1 / 5)
              "call" (-4) 1) as (_ & _ & H).
  apply H; lra || lia.
Defined.

(** * Further properties of the three engines *)

(** ** The analytical price: errors, parity at the boundary and bounds *)

Section AnalyticalPriceMore.

Variable norm_cdf : R -> R.

Abbreviation price := (BlackScholesPricer.price norm_cdf).

Lemma Rmax_opp_diff (a : R) : Rmax a 0 - Rmax (- a) 0 = a.
Proof.
  destruct (Rle_lt_dec 0 a) as [H | H].
  - rewrite (Rmax_left a), (Rmax_right (- a)) by lra. lra.
  - rewrite (Rmax_right a), (Rmax_left (- a)) by lra. lra.
Qed.

(** X2. Put-call parity also holds on the two boundary branches, for every
    S and K: at expiry call - put = S - K, and with time left but no
    volatility call - put = S - K * exp (- r * T). *)
Theorem put_call_parity_degenerate (S K T r sigma : R) :
  (T <= 0 ->
   exists call put,
     price S K T r sigma "call" = Return call /\
     price S K T r sigma "put" = Return put /\
     call - put = S - K) /\
  (0 < T -> sigma <= 0 ->
   exists call put,
     price S K T r sigma "call" = Return call /\
     price S K T r sigma "put" = Return put /\
     call - put = S - K * exp (- r * T)).
Proof.
  split.
  - intros HT. eexists. eexists.
    split; [apply price_expired; assumption |].
    split; [apply price_expired; assumption |]. cbn.
    replace (K - S) with (- (S - K)) by ring. apply Rmax_opp_diff.
  - intros HT Hs. eexists. eexists.
    split; [apply price_no_vol; assumption |].
    split; [apply price_no_vol; assumption |]. cbn.
    replace (K * exp (- r * T) - S) with (- (S - K * exp (- r * T))) by ring.
    apply Rmax_opp_diff.
Qed.

Hypothesis norm_cdf_range : forall x, 0 <= norm_cdf x <= 1.

(** X3. For S > 0 and K > 0 the price of a call never exceeds the spot, and
    the price of a put never exceeds the strike, discounted when time
    remains. *)
Theorem price_upper_bounds (S K T r sigma : R) :
  0 < S -> 0 < K ->
  (exists call, price S K T r sigma "call" = Return call /\ call <= S) /\
  (exists put, price S K T r sigma "put" = Return put /\
               put <= (if Rle_dec T 0 then K else K * exp (- r * T))).
Proof.
  intros HS HK. pose proof (exp_pos (- r * T)) as He.
  assert (HKe : 0 < K * exp (- r * T)) by (apply Rmult_lt_0_compat; assumption).
  destruct (Rle_dec T 0) as [HT | HT];
    [| apply Rnot_le_lt in HT; destruct (Rle_lt_dec sigma 0) as [Hs | Hs]].
  - split; eexists; (split; [apply price_expired; assumption |]); cbn;
      apply Rmax_lub; lra.
  - split; eexists; (split; [apply price_no_vol; assumption |]); cbn;
      apply Rmax_lub; lra.
  - set (d1 := (ln (S / K) + (r + sigma ^ 2 / 2) * T) / (sigma * sqrt T)).
    set (d2 := d1 - sigma * sqrt T).
    pose proof (norm_cdf_range d1). pose proof (norm_cdf_range d2).
    pose proof (norm_cdf_range (- d1)). pose proof (norm_cdf_range (- d2)).
    split.
    + exists (Rmax (S * norm_cdf d1 - K * exp (- r * T) * norm_cdf d2) 0).
      split; [apply (price_normal norm_cdf S K T r sigma "call"); assumption || lra |].
      apply Rmax_lub; nra.
    + exists (Rmax (K * exp (- r * T) * norm_cdf (- d2) - S * norm_cdf (- d1)) 0).
      split; [apply (price_normal norm_cdf S K T r sigma "put"); assumption || lra |].
      apply Rmax_lub; nra.
Qed.

End AnalyticalPriceMore.

Section VolatilityValue.

Variable norm_cdf : R -> R.
Hypothesis norm_cdf_sym : forall x, norm_cdf (- x) = 1 - norm_cdf x.
Hypothesis norm_cdf_tilt :
  forall d s, 0 < s -> norm_cdf (d - s) <= exp (d * s - s ^ 2 / 2) * norm_cdf d.

Abbreviation price := (BlackScholesPricer.price norm_cdf).

(** X4. For S > 0, K > 0 and T > 0, volatility never takes value away: the
    price at a positive volatility is at least the price of the same option
    at zero volatility, for a call and for a put. *)
Theorem price_at_least_zero_vol (S K T r sigma : R) (option_type : string) :
  0 < S -> 0 < K -> 0 < T -> 0 < sigma ->
  exists p p0,
    price S K T r sigma option_type = Return p /\
    price S K T r 0 option_type = Return p0 /\
    p0 <= p.
Proof.
  intros HS HK HT Hs.
  set (d1 := (ln (S / K) + (r + sigma ^ 2 / 2) * T) / (sigma * sqrt T)).
  set (d2 := d1 - sigma * sqrt T).
  pose proof (call_form_nonneg norm_cdf norm_cdf_tilt S K T r sigma HS HK HT Hs) as Hc.
  pose proof (put_form_nonneg norm_cdf norm_cdf_tilt S K T r sigma HS HK HT Hs) as Hp.
  pose proof (forms_parity norm_cdf norm_cdf_sym S K T r sigma) as Hpar.
  fold d1 in Hc, Hp, Hpar. fold d2 in Hc, Hp, Hpar.
  eexists. eexists.
  split; [apply price_normal; assumption || lra |].
  split; [apply price_no_vol; assumption || lra |].
  fold d1. fold d2. destruct (is_call option_type); apply Rmax_lub.
  - apply Rle_trans with (2 := Rmax_l _ _). lra.
  - apply Rmax_r.
  - apply Rle_trans with (2 := Rmax_l _ _). lra.
  - apply Rmax_r.
Qed.

End VolatilityValue.

(** ** The Greeks *)

Section Greeks.

Variables norm_cdf norm_pdf : R -> R.

Abbreviation delta := (GreeksCalculator.delta norm_cdf).
Abbreviation gamma := (GreeksCalculator.gamma norm_pdf).
Abbreviation vega := (GreeksCalculator.vega norm_pdf).
Abbreviation theta := (GreeksCalculator.theta norm_cdf norm_pdf).
Abbreviation rho := (GreeksCalculator.rho norm_cdf).

Ltac normal_branch HK HT Hs :=
  rewrite ?orb_false_r;
  rewrite (leb_false _ _ HT), (leb_false _ _ Hs); cbn [orb];
  rewrite _d1_d2_normal by assumption; cbn [bind fst snd].

Lemma gamma_normal (S K T r sigma : R) :
  K <> 0 -> 0 < T -> 0 < sigma ->
  let d1 := (ln (S / K) + (r + sigma ^ 2 / 2) * T) / (sigma * sqrt T) in
  gamma S K T r sigma = Return (norm_pdf d1 / (S * sigma * sqrt T)).
Proof.
  intros HK HT Hs d1. unfold GreeksCalculator.gamma.
  normal_branch HK HT Hs. reflexivity.
Qed.

Lemma vega_normal (S K T r sigma : R) :
  K <> 0 -> 0 < T -> 0 < sigma ->
  let d1 := (ln (S / K) + (r + sigma ^ 2 / 2) * T) / (sigma * sqrt T) in
  vega S K T r sigma = Return (S * norm_pdf d1 * sqrt T).
Proof.
  intros HK HT Hs d1. unfold GreeksCalculator.vega.
  normal_branch HK HT Hs. reflexivity.
Qed.

Lemma theta_normal (S K T r sigma : R) (option_type : string) :
  K <> 0 -> 0 < T -> 0 < sigma ->
  let d1 := (ln (S / K) + (r + sigma ^ 2 / 2) * T) / (sigma * sqrt T) in
  let d2 := d1 - sigma * sqrt T in
  theta S K T r sigma option_type =
  Return ((- (S * norm_pdf d1 * sigma) / (2 * sqrt T)
           + (if is_call option_type
              then - r * K * exp (- r * T) * norm_cdf d2
              else r * K * exp (- r * T) * norm_cdf (- d2))) / 365).
Proof.
  intros HK HT Hs d1 d2. unfold GreeksCalculator.theta.
  normal_branch HK HT Hs. fold d1. fold d2.
  replace 365.0 with 365 by lra. reflexivity.
Qed.

Lemma rho_normal (S K T r sigma : R) (option_type : string) :
  K <> 0 -> 0 < T -> 0 < sigma ->
  let d1 := (ln (S / K) + (r + sigma ^ 2 / 2) * T) / (sigma * sqrt T) in
  let d2 := d1 - sigma * sqrt T in
  rho S K T r sigma option_type =
  Return (if is_call option_type
          then K * T * exp (- r * T) * norm_cdf d2
          else - K * T * exp (- r * T) * norm_cdf (- d2)).
Proof.
  intros HK HT Hs d1 d2. unfold GreeksCalculator.rho.
  normal_branch HK HT Hs. fold d1. fold d2.
  destruct (is_call option_type); reflexivity.
Qed.

Lemma greek_degenerate (S K T r sigma : R) (option_type : string) :
  T <= 0 \/ sigma <= 0 ->
  gamma S K T r sigma = Return 0 /\
  vega S K T r sigma = Return 0 /\
  theta S K T r sigma option_type = Return 0 /\
  rho S K T r sigma option_type = Return 0.
Proof.
  intros H.
  assert (Hb : leb T 0 || leb sigma 0 = true).
  { apply orb_true_iff. destruct H as [H | H]; [left | right]; apply leb_true; exact H. }
  unfold GreeksCalculator.gamma, GreeksCalculator.vega, GreeksCalculator.theta,
    GreeksCalculator.rho.
  rewrite Hb. repeat split.
Qed.

End Greeks.

Section GreeksRelations.

Variables norm_cdf norm_pdf : R -> R.

Abbreviation delta := (GreeksCalculator.delta norm_cdf).
Abbreviation gamma := (GreeksCalculator.gamma norm_pdf).
Abbreviation vega := (GreeksCalculator.vega norm_pdf).
Abbreviation theta := (GreeksCalculator.theta norm_cdf norm_pdf).
Abbreviation rho := (GreeksCalculator.rho norm_cdf).
Abbreviation all_greeks := (GreeksCalculator.all_greeks norm_cdf norm_pdf).

Section Density.

Hypothesis norm_pdf_nonneg : forall x, 0 <= norm_pdf x.

(** X6. For S > 0 and K > 0, in every branch, Gamma and Vega are not
    negative and Vega = S^2 * sigma * T * Gamma. *)
Theorem gamma_vega_relation (S K T r sigma : R) :
  0 < S -> 0 < K ->
  exists g v,
    gamma S K T r sigma = Return g /\
    vega S K T r sigma = Return v /\
    0 <= g /\ 0 <= v /\ v = S ^ 2 * sigma * T * g.
Proof.
  intros HS HK.
  destruct (Rle_lt_dec T 0) as [HT | HT];
    [| destruct (Rle_lt_dec sigma 0) as [Hs | Hs]].
  - destruct (greek_degenerate norm_cdf norm_pdf S K T r sigma "call")
      as (Hg & Hv & _); [left; assumption |].
    exists 0, 0. repeat split; try assumption; lra.
  - destruct (greek_degenerate norm_cdf norm_pdf S K T r sigma "call")
      as (Hg & Hv & _); [right; assumption |].
    exists 0, 0. repeat split; try assumption; lra.
  - set (d1 := (ln (S / K) + (r + sigma ^ 2 / 2) * T) / (sigma * sqrt T)).
    pose proof (norm_pdf_nonneg d1) as Hpdf.
    pose proof (sqrt_lt_R0 T HT) as Hsqrt.
    exists (norm_pdf d1 / (S * sigma * sqrt T)), (S * norm_pdf d1 * sqrt T).
    split; [apply gamma_normal; assumption || lra |].
    split; [apply vega_normal; assumption || lra |].
    split; [| split].
    + apply Rmult_le_pos; [assumption |].
      left. apply Rinv_0_lt_compat. repeat apply Rmult_lt_0_compat; assumption.
    + repeat apply Rmult_le_pos; lra.
    + rewrite <- (sqrt_sqrt T) at 2 by lra. field. lra.
Qed.

End Density.

Section Symmetry.

Hypothesis norm_cdf_sym : forall x, norm_cdf (- x) = 1 - norm_cdf x.

(** X5. For S > 0, K > 0, T > 0 and sigma > 0 the Delta of the call exceeds
    the Delta of the put by exactly 1; at expiry the difference is 1 when
    S <> K and 0 at the money. *)
Theorem delta_parity (S K T r sigma : R) :
  (0 < S -> 0 < K -> 0 < T -> 0 < sigma ->
   exists c p,
     delta S K T r sigma "call" = Return c /\
     delta S K T r sigma "put" = Return p /\ c - p = 1) /\
  (T <= 0 ->
   exists c p,
     delta S K T r sigma "call" = Return c /\
     delta S K T r sigma "put" = Return p /\
     (S <> K -> c - p = 1) /\ (S = K -> c - p = 0)).
Proof.
  split.
  - intros HS HK HT Hs. eexists. eexists.
    split; [apply delta_normal; assumption || lra |].
    split; [apply delta_normal; assumption || lra |].
    cbn. rewrite norm_cdf_sym. ring.
  - intros HT. eexists. eexists.
    split; [apply delta_expired; assumption |].
    split; [apply delta_expired; assumption |].
    cbn. destruct (Rlt_dec K S), (Rlt_dec S K); split; intros; lra.
Qed.

(** X7. For S > 0, K > 0, T > 0 and sigma > 0 the Theta of the call minus
    the Theta of the put is - r * K * exp (- r * T) / 365, whatever the
    density. *)
Theorem theta_parity (S K T r sigma : R) :
  0 < S -> 0 < K -> 0 < T -> 0 < sigma ->
  exists c p,
    theta S K T r sigma "call" = Return c /\
    theta S K T r sigma "put" = Return p /\
    c - p = - r * K * exp (- r * T) / 365.
Proof.
  intros HS HK HT Hs. eexists. eexists.
  split; [apply theta_normal; assumption || lra |].
  split; [apply theta_normal; assumption || lra |].
  cbn [is_call String.eqb Ascii.eqb Bool.eqb]. rewrite norm_cdf_sym. field.
  apply Rgt_not_eq, sqrt_lt_R0, HT.
Qed.

(** X8. For S > 0, K > 0, T > 0 and sigma > 0 the Rho of the call minus the
    Rho of the put is K * T * exp (- r * T). *)
Theorem rho_parity (S K T r sigma : R) :
  0 < S -> 0 < K -> 0 < T -> 0 < sigma ->
  exists c p,
    rho S K T r sigma "call" = Return c /\
    rho S K T r sigma "put" = Return p /\
    c - p = K * T * exp (- r * T).
Proof.
  intros HS HK HT Hs. eexists. eexists.
  split; [apply rho_normal; assumption || lra |].
  split; [apply rho_normal; assumption || lra |].
  cbn [is_call String.eqb Ascii.eqb Bool.eqb]. rewrite norm_cdf_sym. ring.
Qed.

End Symmetry.

End GreeksRelations.

Section GreeksTogether.

Variables norm_cdf norm_pdf : R -> R.

Abbreviation delta := (GreeksCalculator.delta norm_cdf).
Abbreviation gamma := (GreeksCalculator.gamma norm_pdf).
Abbreviation vega := (GreeksCalculator.vega norm_pdf).
Abbreviation theta := (GreeksCalculator.theta norm_cdf norm_pdf).
Abbreviation rho := (GreeksCalculator.rho norm_cdf).
Abbreviation all_greeks := (GreeksCalculator.all_greeks norm_cdf norm_pdf).

Hypothesis norm_cdf_range : forall x, 0 <= norm_cdf x <= 1.

(** X9. For S > 0 and K > 0 the two Rhos are returned; both are 0 when
    T <= 0 or sigma <= 0, and when T > 0 and sigma > 0 the Rho of a call lies
    between 0 and K * T * exp (- r * T) and the Rho of a put between
    - K * T * exp (- r * T) and 0. *)
Theorem rho_bounds (S K T r sigma : R) :
  0 < S -> 0 < K ->
  exists c p,
    rho S K T r sigma "call" = Return c /\
    rho S K T r sigma "put" = Return p /\
    (T <= 0 \/ sigma <= 0 -> c = 0 /\ p = 0) /\
    (0 < T -> 0 < sigma ->
     0 <= c <= K * T * exp (- r * T) /\ - (K * T * exp (- r * T)) <= p <= 0).
Proof.
  intros HS HK.
  destruct (Rle_lt_dec T 0) as [HT | HT];
    [| destruct (Rle_lt_dec sigma 0) as [Hs | Hs]].
  - destruct (greek_degenerate norm_cdf norm_pdf S K T r sigma "call")
      as (_ & _ & _ & Hc); [left; assumption |].
    destruct (greek_degenerate norm_cdf norm_pdf S K T r sigma "put")
      as (_ & _ & _ & Hp); [left; assumption |].
    exists 0, 0. repeat split; try assumption; lra.
  - destruct (greek_degenerate norm_cdf norm_pdf S K T r sigma "call")
      as (_ & _ & _ & Hc); [right; assumption |].
    destruct (greek_degenerate norm_cdf norm_pdf S K T r sigma "put")
      as (_ & _ & _ & Hp); [right; assumption |].
    exists 0, 0. repeat split; try assumption; lra.
  - set (d1 := (ln (S / K) + (r + sigma ^ 2 / 2) * T) / (sigma * sqrt T)).
    set (d2 := d1 - sigma * sqrt T).
    pose proof (norm_cdf_range d2) as H1. pose proof (norm_cdf_range (- d2)) as H2.
    assert (Hpos : 0 < K * T * exp (- r * T))
      by (repeat apply Rmult_lt_0_compat; try assumption; apply exp_pos).
    exists (K * T * exp (- r * T) * norm_cdf d2),
           (- K * T * exp (- r * T) * norm_cdf (- d2)).
    split; [apply (rho_normal norm_cdf S K T r sigma "call"); assumption || lra |].
    split; [apply (rho_normal norm_cdf S K T r sigma "put"); assumption || lra |].
    split; [intros [H | H]; lra |].
    intros _ _. split; nra.
Qed.

End GreeksTogether.

(** ** The Monte Carlo price: agreement with the closed forms, bounds *)

Section MonteCarloMore.

Variable draws : nat -> nat -> R.
Variables S K T r sigma : R.
Variable option_type : string.
Variables n_simulations n_steps : Z.

Abbreviation mc_price := (MonteCarloPricer.price draws S K T r sigma option_type).
Abbreviation sample :=
  (MonteCarloPricer.simulated_payoffs draws S K T r sigma option_type
     n_simulations n_steps).

(** The two numbers that the simulation branch returns. *)
Lemma mc_simulated_values :
  0 < T -> 0 < sigma -> (1 <= n_simulations)%Z -> (1 <= n_steps)%Z ->
  let n := INR (List.length sample) in
  let m := sum sample / n in
  n = IZR n_simulations /\
  mc_price n_simulations n_steps =
  Return (Num m,
          Num (sqrt (sum (map (fun x => (x - m) ^ 2) sample) / n)
               / sqrt (IZR n_simulations))).
Proof.
  intros HT Hs Hsim Hsteps n m.
  pose proof (length_simulated_payoffs draws S K T r sigma option_type
                n_simulations n_steps) as Hl.
  assert (Hne : sample <> []) by (apply nonempty_length; lia).
  split.
  - unfold n. rewrite Hl, INR_IZR_INZ, Z2Nat.id by lia. reflexivity.
  - rewrite mc_simulated by (assumption || lia).
    rewrite (mean_nonempty _ Hne), (std_nonempty _ Hne). reflexivity.
Qed.

(** X11. When T <= 0 or sigma <= 0 the Monte Carlo price is the analytical
    price of the same option with a standard error of 0, whatever the draws
    and the two counts: nothing is simulated. *)
Theorem mc_degenerate_is_analytical (norm_cdf : R -> R) :
  T <= 0 \/ sigma <= 0 ->
  exists p,
    BlackScholesPricer.price norm_cdf S K T r sigma option_type = Return p /\
    MonteCarloPricer.price draws S K T r sigma option_type n_simulations n_steps
      = Return (Num p, Num 0).
Proof.
  intros H. destruct (Rle_lt_dec T 0) as [HT | HT].
  - eexists. split; [apply price_expired; assumption |].
    rewrite mc_expired by assumption. reflexivity.
  - assert (Hs : sigma <= 0) by (destruct H; [lra | assumption]).
    eexists. split; [apply price_no_vol; assumption |].
    rewrite mc_no_vol by assumption. reflexivity.
Qed.

(** X12. For S > 0 and positive counts the standard error is a number that
    is not negative, in every branch; with a single simulation it is 0. *)
Theorem std_error_nonneg :
  0 < S -> (1 <= n_simulations)%Z -> (1 <= n_steps)%Z ->
  exists p e,
    MonteCarloPricer.price draws S K T r sigma option_type n_simulations n_steps
      = Return (Num p, Num e) /\
    0 <= e /\ (n_simulations = 1%Z -> e = 0).
Proof.
  intros HS Hsim Hsteps.
  destruct (Rle_lt_dec T 0) as [HT | HT];
    [| destruct (Rle_lt_dec sigma 0) as [Hs | Hs]].
  - eexists. eexists. split; [apply mc_expired; assumption |]. split; [lra | reflexivity].
  - eexists. eexists. split; [apply mc_no_vol; assumption |]. split; [lra | reflexivity].
  - destruct (mc_simulated_values HT Hs Hsim Hsteps) as [Hn Hprice].
    eexists. eexists. split; [exact Hprice |]. split.
    + apply Rmult_le_pos; [apply sqrt_pos |].
      left. apply Rinv_0_lt_compat, sqrt_lt_R0, IZR_lt. lia.
    + intros H1.
      pose proof (length_simulated_payoffs draws S K T r sigma option_type
                    n_simulations n_steps) as Hl.
      assert (Hl1 : List.length sample = 1%nat) by (rewrite Hl, H1; reflexivity).
      clear Hprice Hn Hl. revert Hl1. generalize sample.
      intros [| x [| y l]] Hl1; try discriminate Hl1.
      unfold sum. cbn.
      replace ((x - (x + 0) / 1) * ((x - (x + 0) / 1) * 1) + 0) with 0 by field.
      unfold Rdiv. rewrite Rmult_0_l, sqrt_0. ring.
Qed.

End MonteCarloMore.

(** ** The simulated sample, simulation by simulation *)




Section Simulations.

Variable draws : nat -> nat -> R.
Variables S K T r sigma : R.
Variable option_type : string.
Variables n_simulations n_steps : Z.

Abbreviation sample :=
  (MonteCarloPricer.simulated_payoffs draws S K T r sigma option_type
     n_simulations n_steps).


End Simulations.

(** ** The simulated call against the simulated put *)



Lemma sum_le_bound (b : R) (l : list R) :
  Forall (fun x => x <= b) l -> sum l <= INR (List.length l) * b.
Proof.
  unfold sum. induction 1 as [| x l Hx Hl IH].
  - cbn. lra.
  - cbn [fold_right List.length]. rewrite S_INR. lra.
Qed.

Lemma ST_nonneg (Zm : list (list R)) (S T r sigma dt : R) (n_steps : Z) :
  0 <= S -> Forall (fun st => 0 <= st) (MonteCarloPricer.ST Zm S T r sigma dt n_steps).
Proof.
  intros HS. apply Forall_forall. intros st Hst.
  destruct (Z.eq_dec n_steps 1) as [-> | Hn].
  - rewrite ST_single_step in Hst. apply in_map_iff in Hst.
    destruct Hst as (row & <- & _). apply Rmult_le_pos; [assumption | left; apply exp_pos].
  - rewrite ST_multi_step in Hst by assumption. apply in_map_iff in Hst.
    destruct Hst as (row & <- & _). left. apply exp_pos.
Qed.

Section CallAndPut.

Variable draws : nat -> nat -> R.
Variables S K T r sigma : R.
Variables n_simulations n_steps : Z.

Abbreviation mc_price := (MonteCarloPricer.price draws S K T r sigma).
Abbreviation terminal :=
  (MonteCarloPricer.ST
     (MonteCarloPricer.matrix draws (Z.to_nat n_simulations) (Z.to_nat n_steps))
     S T r sigma (T / IZR n_steps) n_steps).


(** X13. For S > 0, K > 0 and positive counts, the estimated price of a put
    never exceeds the strike, discounted when time remains, whatever the
    draws. *)
Theorem mc_put_upper_bound :
  0 < S -> 0 < K -> (1 <= n_simulations)%Z -> (1 <= n_steps)%Z ->
  exists put e,
    MonteCarloPricer.price draws S K T r sigma "put" n_simulations n_steps
      = Return (Num put, Num e) /\
    put <= (if Rle_dec T 0 then K else K * exp (- r * T)).
Proof.
  intros HS HK Hsim Hsteps. pose proof (exp_pos (- r * T)) as He.
  destruct (Rle_dec T 0) as [HT | HT];
    [| apply Rnot_le_lt in HT; destruct (Rle_lt_dec sigma 0) as [Hs | Hs]].
  - eexists. eexists. split; [apply mc_expired; assumption |].
    cbn. apply Rmax_lub; lra.
  - eexists. eexists. split; [apply mc_no_vol; assumption |].
    cbn. apply Rmax_lub; nra.
  - destruct (mc_simulated_values draws S K T r sigma "put" n_simulations n_steps
                HT Hs Hsim Hsteps) as [Hn Hp].
    eexists. eexists. split; [exact Hp |].
    assert (Hpos : 0 < IZR n_simulations) by (apply IZR_lt; lia).
    rewrite Hn. apply (Rmult_le_reg_r (IZR n_simulations)); [assumption |].
    unfold Rdiv. rewrite Rmult_assoc, Rinv_l, Rmult_1_r by lra.
    rewrite <- Hn, (Rmult_comm (K * exp (- r * T))).
    apply sum_le_bound.
    unfold MonteCarloPricer.simulated_payoffs, MonteCarloPricer.discounted_payoffs,
      smul, maximum0, max0.
    rewrite is_call_put, !map_map. apply Forall_forall. intros x Hx.
    apply in_map_iff in Hx. destruct Hx as (st & <- & Hst).
    assert (Hst0 : 0 <= st).
    { eapply Forall_forall; [apply ST_nonneg | exact Hst]. lra. }
    rewrite (Rmult_comm K). apply Rmult_le_compat_l; [lra |].
    apply Rmax_lub; lra.
Qed.

End CallAndPut.

(** ** The confidence interval *)

Section ConfidenceInterval.

Variable norm_ppf : R -> R.
Variable draws : nat -> nat -> R.
Variables S K T r sigma : R.
Variable option_type : string.
Variables n_simulations n_steps : Z.
Variable confidence_level : R.

Abbreviation mc_price :=
  (MonteCarloPricer.price draws S K T r sigma option_type n_simulations n_steps).
Abbreviation mc_interval :=
  (MonteCarloPricer.price_with_confidence_interval norm_ppf draws S K T r sigma
     option_type n_simulations n_steps confidence_level).

Lemma mc_returns_numbers :
  (1 <= n_simulations)%Z -> (1 <= n_steps)%Z ->
  exists p e, mc_price = Return (Num p, Num e) /\ 0 <= e /\
              (T <= 0 \/ sigma <= 0 -> e = 0).
Proof.
  intros Hsim Hsteps.
  destruct (Rle_lt_dec T 0) as [HT | HT];
    [| destruct (Rle_lt_dec sigma 0) as [Hs | Hs]].
  - eexists. eexists. split; [apply mc_expired; assumption |]. split; [lra | reflexivity].
  - eexists. eexists. split; [apply mc_no_vol; assumption |]. split; [lra | reflexivity].
  - destruct (mc_simulated_values draws S K T r sigma option_type n_simulations n_steps
                HT Hs Hsim Hsteps) as [_ Hprice].
    eexists. eexists. split; [exact Hprice |]. split.
    + apply Rmult_le_pos; [apply sqrt_pos |].
      left. apply Rinv_0_lt_compat, sqrt_lt_R0, IZR_lt. lia.
    + intros [H | H]; lra.
Qed.

(** X16. For S > 0, positive counts and a confidence level strictly between
    0 and 1, where norm.ppf is finite, the confidence interval is centred on
    the estimated price p with half-width z * e, where e is the standard
    error and z = norm.ppf((1 + confidence_level) / 2): it returns
    (p, e, (p - z * e, p + z * e)) with the p and e of the price operation;
    when z >= 0 the interval contains p, and when T <= 0 or sigma <= 0 it
    is the single point p. *)
Theorem confidence_interval_centred :
  0 < S -> 0 < confidence_level < 1 ->
  (1 <= n_simulations)%Z -> (1 <= n_steps)%Z ->
  let z := norm_ppf ((1 + confidence_level) / 2) in
  exists p e,
    MonteCarloPricer.price draws S K T r sigma option_type n_simulations n_steps
      = Return (Num p, Num e) /\
    MonteCarloPricer.price_with_confidence_interval norm_ppf draws S K T r sigma
      option_type n_simulations n_steps confidence_level
        = Return (Num p, Num e, (Num (p - z * e), Num (p + z * e))) /\
    (p - z * e + (p + z * e)) / 2 = p /\
    (0 <= z -> p - z * e <= p <= p + z * e) /\
    (T <= 0 \/ sigma <= 0 -> p - z * e = p /\ p + z * e = p).
Proof.
  intros HS Hlevel Hsim Hsteps z.
  destruct (mc_returns_numbers Hsim Hsteps) as (p & e & Hprice & He & Hdeg).
  exists p, e. split; [exact Hprice |]. split; [| split; [| split]].
  - unfold MonteCarloPricer.price_with_confidence_interval.
    rewrite Hprice. reflexivity.
  - field.
  - intros Hz. assert (0 <= z * e) by (apply Rmult_le_pos; assumption). lra.
  - intros H. rewrite (Hdeg H). split; ring.
Qed.

(** X17. The confidence-interval operation raises exactly when the price
    operation raises, with the same exception; and when the price operation
    returns (nan, nan), every number it returns is nan. *)
Theorem confidence_interval_errors :
  (forall e, MonteCarloPricer.price_with_confidence_interval norm_ppf draws S K T r sigma
      option_type n_simulations n_steps confidence_level
        = Raise e <->
    MonteCarloPricer.price draws S K T r sigma option_type n_simulations n_steps = Raise e) /\
  (MonteCarloPricer.price draws S K T r sigma option_type n_simulations n_steps
    = Return (NaN, NaN) ->
   MonteCarloPricer.price_with_confidence_interval norm_ppf draws S K T r sigma
      option_type n_simulations n_steps confidence_level = Return (NaN, NaN, (NaN, NaN))).
Proof.
  unfold MonteCarloPricer.price_with_confidence_interval. split.
  - intros e. destruct mc_price as [ps | e']; cbn [bind].
    + split; discriminate.
    + split; intros H; injection H as ->; reflexivity.
  - intros ->. reflexivity.
Qed.

End ConfidenceInterval.

(** ** The further properties at the quoted option *)

Lemma gaussian_pdf_nonneg (x : R) : 0 <= gaussian_pdf x.
Proof.
  unfold gaussian_pdf. apply Rmult_le_pos; [left; apply exp_pos |].
  left. apply Rinv_0_lt_compat, sqrt_lt_R0.
  apply Rmult_lt_0_compat; [lra | apply PI_RGT_0].
Qed.

Lemma price_upper_bounds_witness :
  exists call,
    BlackScholesPricer.price tail_cdf 100 105 (1 / 4) (1 / 20) (1 / 5) "call" = Return call
    /\ call <= 100.
Proof.
  apply (price_upper_bounds tail_cdf tail_cdf_range 100 105 (1 / 4) (1 / 20) (1 / 5)); lra.
Defined.

Lemma price_at_least_zero_vol_witness :
  exists p p0,
    BlackScholesPricer.price tail_cdf 100 105 (1 / 4) (1 / 20) (1 / 5) "call" = Return p /\
    BlackScholesPricer.price tail_cdf 100 105 (1 / 4) (1 / 20) 0 "call" = Return p0 /\
    p0 <= p.
Proof.
  apply (price_at_least_zero_vol tail_cdf tail_cdf_sym tail_cdf_tilt); lra.
Defined.

Lemma delta_parity_witness :
  exists c p,
    GreeksCalculator.delta tail_cdf 100 105 (1 / 4) (1 / 20) (1 / 5) "call" = Return c /\
    GreeksCalculator.delta tail_cdf 100 105 (1 / 4) (1 / 20) (1 / 5) "put" = Return p /\
    c - p = 1.
Proof.
  apply (delta_parity tail_cdf tail_cdf_sym 100 105 (1 / 4) (1 / 20) (1 / 5)); lra.
Defined.

Lemma gamma_vega_relation_witness :
  exists g v,
    GreeksCalculator.gamma gaussian_pdf 100 105 (1 / 4) (1 / 20) (1 / 5) = Return g /\
    GreeksCalculator.vega gaussian_pdf 100 105 (1 / 4) (1 / 20) (1 / 5) = Return v /\
    0 <= g /\ 0 <= v /\ v = 100 ^ 2 * (1 / 5) * (1 / 4) * g.
Proof.
  apply (gamma_vega_relation tail_cdf gaussian_pdf gaussian_pdf_nonneg); lra.
Defined.

Lemma theta_parity_witness :
  exists c p,
    GreeksCalculator.theta tail_cdf gaussian_pdf 100 105 (1 / 4) (1 / 20) (1 / 5) "call"
      = Return c /\
    GreeksCalculator.theta tail_cdf gaussian_pdf 100 105 (1 / 4) (1 / 20) (1 / 5) "put"
      = Return p /\
    c - p = - (1 / 20) * 105 * exp (- (1 / 20) * (1 / 4)) / 365.
Proof.
  apply (theta_parity tail_cdf gaussian_pdf tail_cdf_sym); lra.
Defined.

Lemma rho_parity_witness :
  exists c p,
    GreeksCalculator.rho tail_cdf 100 105 (1 / 4) (1 / 20) (1 / 5) "call" = Return c /\
    GreeksCalculator.rho tail_cdf 100 105 (1 / 4) (1 / 20) (1 / 5) "put" = Return p /\
    c - p = 105 * (1 / 4) * exp (- (1 / 20) * (1 / 4)).
Proof.
  apply (rho_parity tail_cdf tail_cdf_sym 100 105 (1 / 4) (1 / 20) (1 / 5)); lra.
Defined.

Lemma rho_bounds_witness :
  exists c p,
    GreeksCalculator.rho tail_cdf 100 105 (1 / 4) (1 / 20) (1 / 5) "call" = Return c /\
    GreeksCalculator.rho tail_cdf 100 105 (1 / 4) (1 / 20) (1 / 5) "put" = Return p /\
    (1 / 4 <= 0 \/ 1 / 5 <= 0 -> c = 0 /\ p = 0) /\
    (0 < 1 / 4 -> 0 < 1 / 5 ->
     0 <= c <= 105 * (1 / 4) * exp (- (1 / 20) * (1 / 4)) /\
     - (105 * (1 / 4) * exp (- (1 / 20) * (1 / 4))) <= p <= 0).
Proof.
  apply (rho_bounds tail_cdf gaussian_pdf tail_cdf_range 100 105 (1 / 4) (1 / 20) (1 / 5));
    lra.
Defined.

Lemma mc_degenerate_is_analytical_witness :
  exists p,
    BlackScholesPricer.price tail_cdf 100 105 0 (1 / 20) (1 / 5) "put" = Return p /\
    MonteCarloPricer.price (constant_draws 0) 100 105 0 (1 / 20) (1 / 5) "put" 1000 1
    = Return (Num p, Num 0).
Proof.
  apply (mc_degenerate_is_analytical (constant_draws 0) 100 105 0 (1 / 20) (1 / 5) "put"
           1000 1 tail_cdf).
  left. lra.
Defined.

Lemma std_error_nonneg_witness :
  exists p e,
    MonteCarloPricer.price draws_0_ln3 100 105 (1 / 4) (1 / 20) (1 / 5) "call" 2 1
    = Return (Num p, Num e) /\ 0 <= e /\ (2%Z = 1%Z -> e = 0).
Proof.
  apply (std_error_nonneg draws_0_ln3 100 105 (1 / 4) (1 / 20) (1 / 5) "call" 2 1);
    lra || lia.
Defined.

Lemma mc_put_upper_bound_witness :
  exists put e,
    MonteCarloPricer.price draws_0_ln3 100 105 0 (1 / 20) (1 / 5) "put" 2 1
    = Return (Num put, Num e) /\
    put <= (if Rle_dec 0 0 then 105 else 105 * exp (- (1 / 20) * 0)).
Proof.
  apply (mc_put_upper_bound draws_0_ln3 100 105 0 (1 / 20) (1 / 5) 2 1); lra || lia.
Defined.



Lemma confidence_interval_centred_witness :
  exists p e,
    MonteCarloPricer.price draws_0_ln3 100 105 (1 / 4) (1 / 20) (1 / 5) "call" 2 1
    = Return (Num p, Num e) /\
    MonteCarloPricer.price_with_confidence_interval logistic_ppf draws_0_ln3
      100 105 (1 / 4) (1 / 20) (1 / 5) "call" 2 1 (19 / 20)
    = Return (Num p, Num e,
              (Num (p - logistic_ppf ((1 + 19 / 20) / 2) * e),
               Num (p + logistic_ppf ((1 + 19 / 20) / 2) * e))).
Proof.
  destruct (confidence_interval_centred logistic_ppf draws_0_ln3
              100 105 (1 / 4) (1 / 20) (1 / 5) "call" 2 1 (19 / 20))
    as (p & e & Hp & Hi & _); [lra | lra | lia | lia |].
  exists p, e. split; assumption.
Defined.


(** ** The Greeks as sensitivities of the analytical price *)

Lemma derivable_pt_lim_ext (f g : R -> R) (x l : R) :
  (forall y, f y = g y) -> derivable_pt_lim f x l -> derivable_pt_lim g x l.
Proof.
  intros Hfg Hf eps Heps. destruct (Hf eps Heps) as [delta Hd]. exists delta.
  intros h Hh Hlt. rewrite <- !Hfg. apply Hd; assumption.
Qed.

Lemma derivable_pt_value (f : R -> R) (x : R) :
  derivable_pt f x -> exists l, derivable_pt_lim f x l.
Proof. intros [l Hl]. exists l. exact Hl. Qed.

Lemma discounted_strike_rate (K T r : R) :
  derivable_pt_lim (fun x => K * exp (- x * T)) r (- T * (K * exp (- r * T))).
Proof.
  pose proof (derivable_pt_lim_comp (fun y => y * (- T) - 0) exp r _ _
                (affine_derivative (- T) 0 r) (derivable_pt_lim_exp (r * (- T) - 0))) as H.
  apply (derivable_pt_lim_scal _ K) in H.
  replace (- T * (K * exp (- r * T))) with (K * (exp (r * - T - 0) * - T)).
  - apply derivable_pt_lim_ext with (2 := H). intros y.
    unfold mult_real_fct, comp. f_equal. f_equal. ring.
  - replace (r * - T - 0) with (- r * T) by ring. ring.
Qed.

Lemma discounted_strike_time (K T r : R) :
  derivable_pt_lim (fun x => K * exp (- r * x)) T (- r * (K * exp (- r * T))).
Proof.
  pose proof (derivable_pt_lim_comp (fun y => y * (- r) - 0) exp T _ _
                (affine_derivative (- r) 0 T) (derivable_pt_lim_exp (T * (- r) - 0))) as H.
  apply (derivable_pt_lim_scal _ K) in H.
  replace (- r * (K * exp (- r * T))) with (K * (exp (T * - r - 0) * - r)).
  - apply derivable_pt_lim_ext with (2 := H). intros y.
    unfold mult_real_fct, comp. f_equal. f_equal. ring.
  - replace (T * - r - 0) with (- r * T) by ring. ring.
Qed.

Lemma vol_sqrt_vol (T sigma : R) :
  derivable_pt_lim (fun x => x * sqrt T) sigma (sqrt T).
Proof.
  apply derivable_pt_lim_ext with (2 := affine_derivative (sqrt T) 0 sigma).
  intros y. ring.
Qed.

Lemma vol_sqrt_time (T sigma : R) :
  0 < T -> derivable_pt_lim (fun x => sigma * sqrt x) T (sigma / (2 * sqrt T)).
Proof.
  intros HT. pose proof (derivable_pt_lim_sqrt T HT) as H.
  apply (derivable_pt_lim_scal _ sigma) in H. exact H.
Qed.


Lemma d1_derivable_vol (S K T r sigma : R) :
  0 < T -> 0 < sigma ->
  exists l,
    derivable_pt_lim
      (fun x => (ln (S / K) + (r + x ^ 2 / 2) * T) / (x * sqrt T)) sigma l.
Proof.
  intros HT Hs. pose proof (vol_sqrt_pos T sigma HT Hs).
  apply derivable_pt_value. reg; lra.
Qed.

Lemma d1_derivable_rate (S K T r sigma : R) :
  0 < T -> 0 < sigma ->
  exists l,
    derivable_pt_lim
      (fun x => (ln (S / K) + (x + sigma ^ 2 / 2) * T) / (sigma * sqrt T)) r l.
Proof.
  intros HT Hs. pose proof (vol_sqrt_pos T sigma HT Hs).
  apply derivable_pt_value. reg; lra.
Qed.

Lemma d1_derivable_time (S K T r sigma : R) :
  0 < T -> 0 < sigma ->
  exists l,
    derivable_pt_lim
      (fun x => (ln (S / K) + (r + sigma ^ 2 / 2) * x) / (sigma * sqrt x)) T l.
Proof.
  intros HT Hs. pose proof (vol_sqrt_pos T sigma HT Hs).
  apply derivable_pt_value. reg; lra.
Qed.

Section ClosedFormSensitivity.

Variables Phi phi : R -> R.
Variables Sx Kx dx sx : R -> R.
Variables x0 S' K' d' s' : R.

Hypothesis HS : derivable_pt_lim Sx x0 S'.
Hypothesis HK : derivable_pt_lim Kx x0 K'.
Hypothesis Hd : derivable_pt_lim dx x0 d'.
Hypothesis Hs : derivable_pt_lim sx x0 s'.
Hypothesis HPhi1 : derivable_pt_lim Phi (dx x0) (phi (dx x0)).
Hypothesis HPhi2 : derivable_pt_lim Phi (dx x0 - sx x0) (phi (dx x0 - sx x0)).
Hypothesis Hbalance : Sx x0 * phi (dx x0) = Kx x0 * phi (dx x0 - sx x0).

(** The derivative of [S * Phi (d) - K * Phi (d - s)] in a parameter on
    which [S], [K], [d] and [s] depend, at a point where
    [S * phi (d) = K * phi (d - s)]: the derivative of [d] cancels. *)
Lemma closed_form_sensitivity :
  derivable_pt_lim (fun x => Sx x * Phi (dx x) - Kx x * Phi (dx x - sx x)) x0
    (S' * Phi (dx x0) - K' * Phi (dx x0 - sx x0) + Sx x0 * phi (dx x0) * s').
Proof.
  pose proof (derivable_pt_lim_comp dx Phi x0 _ _ Hd HPhi1) as H1.
  pose proof (derivable_pt_lim_minus dx sx x0 _ _ Hd Hs) as Hds.
  pose proof (derivable_pt_lim_comp (dx - sx)%F Phi x0 _ _ Hds HPhi2) as H2.
  pose proof (derivable_pt_lim_minus _ _ x0 _ _
                (derivable_pt_lim_mult _ _ x0 _ _ HS H1)
                (derivable_pt_lim_mult _ _ x0 _ _ HK H2)) as H.
  unfold minus_fct, mult_fct, comp in H.
  replace (S' * Phi (dx x0) - K' * Phi (dx x0 - sx x0) + Sx x0 * phi (dx x0) * s')
    with (S' * Phi (dx x0) + Sx x0 * (phi (dx x0) * d')
          - (K' * Phi (dx x0 - sx x0) + Kx x0 * (phi (dx x0 - sx x0) * (d' - s')))).
  - exact H.
  - replace (Kx x0 * (phi (dx x0 - sx x0) * (d' - s')))
      with (Kx x0 * phi (dx x0 - sx x0) * (d' - s')) by ring.
    rewrite <- Hbalance. ring.
Qed.

End ClosedFormSensitivity.

(** The facts of the normal distribution that the sensitivities rest on, at
    the [d1] and [d2] of the option: the density is the derivative of the
    distribution function, and it has the Gaussian shape. *)
Section Sensitivities.

Variables norm_cdf norm_pdf : R -> R.
Variables S K T r sigma : R.
Hypothesis HS : 0 < S.
Hypothesis HK : 0 < K.
Hypothesis HT : 0 < T.
Hypothesis Hsigma : 0 < sigma.

Let d1 := (ln (S / K) + (r + sigma ^ 2 / 2) * T) / (sigma * sqrt T).
Let d2 := d1 - sigma * sqrt T.

Hypothesis cdf_at_d1 : derivable_pt_lim norm_cdf d1 (norm_pdf d1).
Hypothesis cdf_at_d2 : derivable_pt_lim norm_cdf d2 (norm_pdf d2).
Hypothesis pdf_at_d2 :
  norm_pdf d2 = exp (d1 * (sigma * sqrt T) - (sigma * sqrt T) ^ 2 / 2) * norm_pdf d1.

Lemma density_balance : S * norm_pdf d1 = K * exp (- r * T) * norm_pdf d2.
Proof.
  rewrite pdf_at_d2.
  replace (exp (d1 * (sigma * sqrt T) - (sigma * sqrt T) ^ 2 / 2))
    with (S / K * exp (r * T))
    by (symmetry; apply exp_d1_times_vol; assumption).
  replace (- r * T) with (- (r * T)) by ring. rewrite exp_Ropp.
  field. repeat split; try lra; apply Rgt_not_eq, exp_pos.
Qed.


(** X20. Vega is the sensitivity of the price to the volatility: the
    derivative at sigma of the closed form that the price clamps at zero,
    per unit of volatility. *)
Theorem vega_is_volatility_sensitivity :
  let form := fun x =>
    S * norm_cdf ((ln (S / K) + (r + x ^ 2 / 2) * T) / (x * sqrt T))
    - K * exp (- r * T)
      * norm_cdf ((ln (S / K) + (r + x ^ 2 / 2) * T) / (x * sqrt T) - x * sqrt T) in
  (forall x, 0 < x ->
     BlackScholesPricer.price norm_cdf S K T r x "call" = Return (Rmax (form x) 0)) /\
  exists v,
    GreeksCalculator.vega norm_pdf S K T r sigma = Return v /\
    derivable_pt_lim form sigma v.
Proof.
  intros form. split.
  - intros x Hx. apply (price_normal norm_cdf S K T r x "call"); assumption || lra.
  - exists (S * norm_pdf d1 * sqrt T).
    split; [apply (vega_normal norm_pdf S K T r sigma); assumption || lra |].
    destruct (d1_derivable_vol S K T r sigma HT Hsigma) as [d' Hd'].
    pose proof (closed_form_sensitivity norm_cdf norm_pdf
                  (fun _ => S) (fun _ => K * exp (- r * T))
                  (fun x => (ln (S / K) + (r + x ^ 2 / 2) * T) / (x * sqrt T))
                  (fun x => x * sqrt T)
                  sigma 0 0 d' (sqrt T)
                  (derivable_pt_lim_const _ sigma)
                  (derivable_pt_lim_const _ sigma)
                  Hd'
                  (vol_sqrt_vol T sigma)
                  cdf_at_d1 cdf_at_d2 density_balance) as H.
    cbv beta in H. fold d1 in H. fold d2 in H.
    replace (S * norm_pdf d1 * sqrt T)
      with (0 * norm_cdf d1 - 0 * norm_cdf d2 + S * norm_pdf d1 * sqrt T) by ring.
    exact H.
Qed.

(** X21. Rho of a call is the sensitivity of the price to the rate: the
    derivative at r of the closed form that the price clamps at zero, per
    unit of rate. *)
Theorem rho_is_rate_sensitivity :
  let form := fun x =>
    S * norm_cdf ((ln (S / K) + (x + sigma ^ 2 / 2) * T) / (sigma * sqrt T))
    - K * exp (- x * T)
      * norm_cdf ((ln (S / K) + (x + sigma ^ 2 / 2) * T) / (sigma * sqrt T)
                  - sigma * sqrt T) in
  (forall x, BlackScholesPricer.price norm_cdf S K T x sigma "call"
             = Return (Rmax (form x) 0)) /\
  exists h,
    GreeksCalculator.rho norm_cdf S K T r sigma "call" = Return h /\
    derivable_pt_lim form r h.
Proof.
  intros form. split.
  - intros x. apply (price_normal norm_cdf S K T x sigma "call"); assumption || lra.
  - exists (K * T * exp (- r * T) * norm_cdf d2).
    split; [apply (rho_normal norm_cdf S K T r sigma "call"); assumption || lra |].
    destruct (d1_derivable_rate S K T r sigma HT Hsigma) as [d' Hd'].
    pose proof (closed_form_sensitivity norm_cdf norm_pdf
                  (fun _ => S) (fun x => K * exp (- x * T))
                  (fun x => (ln (S / K) + (x + sigma ^ 2 / 2) * T) / (sigma * sqrt T))
                  (fun _ => sigma * sqrt T)
                  r 0 (- T * (K * exp (- r * T))) d' 0
                  (derivable_pt_lim_const _ r)
                  (discounted_strike_rate K T r)
                  Hd'
                  (derivable_pt_lim_const _ r)
                  cdf_at_d1 cdf_at_d2 density_balance) as H.
    cbv beta in H. fold d1 in H. fold d2 in H.
    replace (K * T * exp (- r * T) * norm_cdf d2)
      with (0 * norm_cdf d1 - - T * (K * exp (- r * T)) * norm_cdf d2
            + S * norm_pdf d1 * 0) by ring.
    exact H.
Qed.

(** X22. Theta of a call is the daily time decay: 365 * Theta is minus the
    derivative, at T, of the closed form that the price clamps at zero. *)
Theorem theta_is_time_decay :
  let form := fun x =>
    S * norm_cdf ((ln (S / K) + (r + sigma ^ 2 / 2) * x) / (sigma * sqrt x))
    - K * exp (- r * x)
      * norm_cdf ((ln (S / K) + (r + sigma ^ 2 / 2) * x) / (sigma * sqrt x)
                  - sigma * sqrt x) in
  (forall x, 0 < x ->
     BlackScholesPricer.price norm_cdf S K x r sigma "call" = Return (Rmax (form x) 0)) /\
  exists t,
    GreeksCalculator.theta norm_cdf norm_pdf S K T r sigma "call" = Return t /\
    derivable_pt_lim form T (- (365 * t)).
Proof.
  intros form. split.
  - intros x Hx. apply (price_normal norm_cdf S K x r sigma "call"); assumption || lra.
  - eexists.
    split; [apply (theta_normal norm_cdf norm_pdf S K T r sigma "call"); assumption || lra |].
    destruct (d1_derivable_time S K T r sigma HT Hsigma) as [d' Hd'].
    pose proof (closed_form_sensitivity norm_cdf norm_pdf
                  (fun _ => S) (fun x => K * exp (- r * x))
                  (fun x => (ln (S / K) + (r + sigma ^ 2 / 2) * x) / (sigma * sqrt x))
                  (fun x => sigma * sqrt x)
                  T 0 (- r * (K * exp (- r * T))) d' (sigma / (2 * sqrt T))
                  (derivable_pt_lim_const _ T)
                  (discounted_strike_time K T r)
                  Hd'
                  (vol_sqrt_time T sigma HT)
                  cdf_at_d1 cdf_at_d2 density_balance) as H.
    cbv beta in H. fold d1 in H. fold d2 in H. fold d1. fold d2.
    cbn [is_call String.eqb Ascii.eqb Bool.eqb].
    match goal with
    | |- derivable_pt_lim _ _ ?l =>
        replace l
          with (0 * norm_cdf d1 - - r * (K * exp (- r * T)) * norm_cdf d2
                + S * norm_pdf d1 * (sigma / (2 * sqrt T)))
    end.
    + exact H.
    + field. apply Rgt_not_eq, sqrt_lt_R0, HT.
Qed.



End Sensitivities.

(** ** The sensitivities at the money: S = K = 100, T = 1, r = 5%,
    sigma = 20% *)

Lemma gaussian_primitive_derivative (x : R) :
  -1 <= x <= 1 -> derivable_pt_lim gaussian_primitive x (gaussian_pdf x).
Proof. apply RiemannInt_P28. Qed.

Lemma sample_d1 :
  (ln (100 / 100) + (1 / 20 + (1 / 5) ^ 2 / 2) * 1) / (1 / 5 * sqrt 1) = 7 / 20.
Proof.
  replace (100 / 100) with 1 by field. rewrite ln_1, sqrt_1. field.
Qed.

Lemma sample_cdf_at_d1 :
  let d1 := (ln (100 / 100) + (1 / 20 + (1 / 5) ^ 2 / 2) * 1) / (1 / 5 * sqrt 1) in
  derivable_pt_lim gaussian_primitive d1 (gaussian_pdf d1).
Proof.
  intros d1. apply gaussian_primitive_derivative. unfold d1. rewrite sample_d1. lra.
Qed.

Lemma sample_cdf_at_d2 :
  let d1 := (ln (100 / 100) + (1 / 20 + (1 / 5) ^ 2 / 2) * 1) / (1 / 5 * sqrt 1) in
  let d2 := d1 - 1 / 5 * sqrt 1 in
  derivable_pt_lim gaussian_primitive d2 (gaussian_pdf d2).
Proof.
  intros d1 d2. apply gaussian_primitive_derivative.
  unfold d2, d1. rewrite sample_d1, sqrt_1. lra.
Qed.

Lemma sample_pdf_at_d2 (d1 s : R) :
  gaussian_pdf (d1 - s) = exp (d1 * s - s ^ 2 / 2) * gaussian_pdf d1.
Proof. symmetry. apply gaussian_pdf_shift. Qed.



Lemma vega_is_volatility_sensitivity_witness :
  exists v,
    GreeksCalculator.vega gaussian_pdf 100 100 1 (1 / 20) (1 / 5) = Return v /\
    derivable_pt_lim
      (fun x =>
         100 * gaussian_primitive
                 ((ln (100 / 100) + (1 / 20 + x ^ 2 / 2) * 1) / (x * sqrt 1))
         - 100 * exp (- (1 / 20) * 1)
           * gaussian_primitive
               ((ln (100 / 100) + (1 / 20 + x ^ 2 / 2) * 1) / (x * sqrt 1) - x * sqrt 1))
      (1 / 5) v.
Proof.
  apply (vega_is_volatility_sensitivity gaussian_primitive gaussian_pdf
           100 100 1 (1 / 20) (1 / 5)); try lra.
  - exact sample_cdf_at_d1.
  - exact sample_cdf_at_d2.
  - apply sample_pdf_at_d2.
Defined.

Lemma rho_is_rate_sensitivity_witness :
  exists h,
    GreeksCalculator.rho gaussian_primitive 100 100 1 (1 / 20) (1 / 5) "call" = Return h /\
    derivable_pt_lim
      (fun x =>
         100 * gaussian_primitive
                 ((ln (100 / 100) + (x + (1 / 5) ^ 2 / 2) * 1) / (1 / 5 * sqrt 1))
         - 100 * exp (- x * 1)
           * gaussian_primitive
               ((ln (100 / 100) + (x + (1 / 5) ^ 2 / 2) * 1) / (1 / 5 * sqrt 1)
                - 1 / 5 * sqrt 1))
      (1 / 20) h.
Proof.
  apply (rho_is_rate_sensitivity gaussian_primitive gaussian_pdf
           100 100 1 (1 / 20) (1 / 5)); try lra.
  - exact sample_cdf_at_d1.
  - exact sample_cdf_at_d2.
  - apply sample_pdf_at_d2.
Defined.

Lemma theta_is_time_decay_witness :
  exists t,
    GreeksCalculator.theta gaussian_primitive gaussian_pdf 100 100 1 (1 / 20) (1 / 5) "call"
    = Return t /\
    derivable_pt_lim
      (fun x =>
         100 * gaussian_primitive
                 ((ln (100 / 100) + (1 / 20 + (1 / 5) ^ 2 / 2) * x) / (1 / 5 * sqrt x))
         - 100 * exp (- (1 / 20) * x)
           * gaussian_primitive
               ((ln (100 / 100) + (1 / 20 + (1 / 5) ^ 2 / 2) * x) / (1 / 5 * sqrt x)
                - 1 / 5 * sqrt x))
      1 (- (365 * t)).
Proof.
  apply (theta_is_time_decay gaussian_primitive gaussian_pdf
           100 100 1 (1 / 20) (1 / 5)); try lra.
  - exact sample_cdf_at_d1.
  - exact sample_cdf_at_d2.
  - apply sample_pdf_at_d2.
Defined.


(** ** The Greeks of a put as sensitivities of the analytical price *)

Section PutFormSensitivity.

Variables Phi phi : R -> R.
Variables Sx Kx dx sx : R -> R.
Variables x0 S' K' d' s' : R.

Hypothesis HS : derivable_pt_lim Sx x0 S'.
Hypothesis HK : derivable_pt_lim Kx x0 K'.
Hypothesis Hd : derivable_pt_lim dx x0 d'.
Hypothesis Hs : derivable_pt_lim sx x0 s'.
Hypothesis HPhi1 : derivable_pt_lim Phi (- dx x0) (phi (- dx x0)).
Hypothesis HPhi2 :
  derivable_pt_lim Phi (- (dx x0 - sx x0)) (phi (- (dx x0 - sx x0))).
Hypothesis Hbalance : Sx x0 * phi (- dx x0) = Kx x0 * phi (- (dx x0 - sx x0)).

(** The derivative of [K * Phi (- (d - s)) - S * Phi (- d)] in a parameter:
    again the derivative of [d] cancels. *)
Lemma put_form_sensitivity :
  derivable_pt_lim (fun x => Kx x * Phi (- (dx x - sx x)) - Sx x * Phi (- dx x)) x0
    (K' * Phi (- (dx x0 - sx x0)) - S' * Phi (- dx x0) + Sx x0 * phi (- dx x0) * s').
Proof.
  pose proof (derivable_pt_lim_opp dx x0 _ Hd) as Hnd.
  pose proof (derivable_pt_lim_comp (- dx)%F Phi x0 _ _ Hnd HPhi1) as H1.
  pose proof (derivable_pt_lim_opp _ x0 _
                (derivable_pt_lim_minus dx sx x0 _ _ Hd Hs)) as Hnds.
  pose proof (derivable_pt_lim_comp (- (dx - sx))%F Phi x0 _ _ Hnds HPhi2) as H2.
  pose proof (derivable_pt_lim_minus _ _ x0 _ _
                (derivable_pt_lim_mult _ _ x0 _ _ HK H2)
                (derivable_pt_lim_mult _ _ x0 _ _ HS H1)) as H.
  unfold minus_fct, mult_fct, comp, opp_fct in H.
  replace (K' * Phi (- (dx x0 - sx x0)) - S' * Phi (- dx x0)
           + Sx x0 * phi (- dx x0) * s')
    with (K' * Phi (- (dx x0 - sx x0))
          + Kx x0 * (phi (- (dx x0 - sx x0)) * - (d' - s'))
          - (S' * Phi (- dx x0) + Sx x0 * (phi (- dx x0) * - d'))).
  - exact H.
  - replace (Kx x0 * (phi (- (dx x0 - sx x0)) * - (d' - s')))
      with (Kx x0 * phi (- (dx x0 - sx x0)) * - (d' - s')) by ring.
    rewrite <- Hbalance. ring.
Qed.

End PutFormSensitivity.

(** The same facts of the normal distribution at [- d1] and [- d2], and the
    symmetry of the density. *)
Section PutSensitivities.

Variables norm_cdf norm_pdf : R -> R.
Variables S K T r sigma : R.
Hypothesis HS : 0 < S.
Hypothesis HK : 0 < K.
Hypothesis HT : 0 < T.
Hypothesis Hsigma : 0 < sigma.

Let d1 := (ln (S / K) + (r + sigma ^ 2 / 2) * T) / (sigma * sqrt T).
Let d2 := d1 - sigma * sqrt T.

Hypothesis cdf_at_minus_d1 : derivable_pt_lim norm_cdf (- d1) (norm_pdf (- d1)).
Hypothesis cdf_at_minus_d2 : derivable_pt_lim norm_cdf (- d2) (norm_pdf (- d2)).
Hypothesis pdf_at_minus_d2 :
  norm_pdf (- d2)
  = exp (d1 * (sigma * sqrt T) - (sigma * sqrt T) ^ 2 / 2) * norm_pdf (- d1).
Hypothesis pdf_even_at_d1 : norm_pdf (- d1) = norm_pdf d1.

Lemma put_density_balance : S * norm_pdf (- d1) = K * exp (- r * T) * norm_pdf (- d2).
Proof.
  rewrite pdf_at_minus_d2.
  replace (exp (d1 * (sigma * sqrt T) - (sigma * sqrt T) ^ 2 / 2))
    with (S / K * exp (r * T))
    by (symmetry; apply exp_d1_times_vol; assumption).
  replace (- r * T) with (- (r * T)) by ring. rewrite exp_Ropp.
  field. repeat split; try lra; apply Rgt_not_eq, exp_pos.
Qed.


(** X25. The Rho of a put is the sensitivity of the price of the put to the
    rate. *)
Theorem put_rho_is_rate_sensitivity :
  let form := fun x =>
    K * exp (- x * T)
    * norm_cdf (- ((ln (S / K) + (x + sigma ^ 2 / 2) * T) / (sigma * sqrt T)
                   - sigma * sqrt T))
    - S * norm_cdf (- ((ln (S / K) + (x + sigma ^ 2 / 2) * T) / (sigma * sqrt T))) in
  (forall x, BlackScholesPricer.price norm_cdf S K T x sigma "put"
             = Return (Rmax (form x) 0)) /\
  exists h,
    GreeksCalculator.rho norm_cdf S K T r sigma "put" = Return h /\
    derivable_pt_lim form r h.
Proof.
  intros form. split.
  - intros x. apply (price_normal norm_cdf S K T x sigma "put"); assumption || lra.
  - exists (- K * T * exp (- r * T) * norm_cdf (- d2)).
    split; [apply (rho_normal norm_cdf S K T r sigma "put"); assumption || lra |].
    destruct (d1_derivable_rate S K T r sigma HT Hsigma) as [d' Hd'].
    pose proof (put_form_sensitivity norm_cdf norm_pdf
                  (fun _ => S) (fun x => K * exp (- x * T))
                  (fun x => (ln (S / K) + (x + sigma ^ 2 / 2) * T) / (sigma * sqrt T))
                  (fun _ => sigma * sqrt T)
                  r 0 (- T * (K * exp (- r * T))) d' 0
                  (derivable_pt_lim_const _ r)
                  (discounted_strike_rate K T r)
                  Hd'
                  (derivable_pt_lim_const _ r)
                  cdf_at_minus_d1 cdf_at_minus_d2 put_density_balance) as H.
    cbv beta in H. fold d1 in H. fold d2 in H.
    replace (- K * T * exp (- r * T) * norm_cdf (- d2))
      with (- T * (K * exp (- r * T)) * norm_cdf (- d2) - 0 * norm_cdf (- d1)
            + S * norm_pdf (- d1) * 0) by ring.
    exact H.
Qed.

(** X26. The Theta of a put is its daily time decay: 365 * Theta is minus
    the derivative, at T, of the closed form that the price of the put
    clamps at zero. *)
Theorem put_theta_is_time_decay :
  let form := fun x =>
    K * exp (- r * x)
    * norm_cdf (- ((ln (S / K) + (r + sigma ^ 2 / 2) * x) / (sigma * sqrt x)
                   - sigma * sqrt x))
    - S * norm_cdf (- ((ln (S / K) + (r + sigma ^ 2 / 2) * x) / (sigma * sqrt x))) in
  (forall x, 0 < x ->
     BlackScholesPricer.price norm_cdf S K x r sigma "put" = Return (Rmax (form x) 0)) /\
  exists t,
    GreeksCalculator.theta norm_cdf norm_pdf S K T r sigma "put" = Return t /\
    derivable_pt_lim form T (- (365 * t)).
Proof.
  intros form. split.
  - intros x Hx. apply (price_normal norm_cdf S K x r sigma "put"); assumption || lra.
  - eexists.
    split; [apply (theta_normal norm_cdf norm_pdf S K T r sigma "put"); assumption || lra |].
    destruct (d1_derivable_time S K T r sigma HT Hsigma) as [d' Hd'].
    pose proof (put_form_sensitivity norm_cdf norm_pdf
                  (fun _ => S) (fun x => K * exp (- r * x))
                  (fun x => (ln (S / K) + (r + sigma ^ 2 / 2) * x) / (sigma * sqrt x))
                  (fun x => sigma * sqrt x)
                  T 0 (- r * (K * exp (- r * T))) d' (sigma / (2 * sqrt T))
                  (derivable_pt_lim_const _ T)
                  (discounted_strike_time K T r)
                  Hd'
                  (vol_sqrt_time T sigma HT)
                  cdf_at_minus_d1 cdf_at_minus_d2 put_density_balance) as H.
    cbv beta in H. fold d1 in H. fold d2 in H. fold d1. fold d2.
    cbn [is_call String.eqb Ascii.eqb Bool.eqb].
    rewrite pdf_even_at_d1 in H.
    match goal with
    | |- derivable_pt_lim _ _ ?l =>
        replace l
          with (- r * (K * exp (- r * T)) * norm_cdf (- d2) - 0 * norm_cdf (- d1)
                + S * norm_pdf d1 * (sigma / (2 * sqrt T)))
    end.
    + exact H.
    + field. apply Rgt_not_eq, sqrt_lt_R0, HT.
Qed.

(** X27. Vega is also the sensitivity of the price of a put to the
    volatility. *)
Theorem put_vega_is_volatility_sensitivity :
  let form := fun x =>
    K * exp (- r * T)
    * norm_cdf (- ((ln (S / K) + (r + x ^ 2 / 2) * T) / (x * sqrt T) - x * sqrt T))
    - S * norm_cdf (- ((ln (S / K) + (r + x ^ 2 / 2) * T) / (x * sqrt T))) in
  (forall x, 0 < x ->
     BlackScholesPricer.price norm_cdf S K T r x "put" = Return (Rmax (form x) 0)) /\
  exists v,
    GreeksCalculator.vega norm_pdf S K T r sigma = Return v /\
    derivable_pt_lim form sigma v.
Proof.
  intros form. split.
  - intros x Hx. apply (price_normal norm_cdf S K T r x "put"); assumption || lra.
  - exists (S * norm_pdf d1 * sqrt T).
    split; [apply (vega_normal norm_pdf S K T r sigma); assumption || lra |].
    destruct (d1_derivable_vol S K T r sigma HT Hsigma) as [d' Hd'].
    pose proof (put_form_sensitivity norm_cdf norm_pdf
                  (fun _ => S) (fun _ => K * exp (- r * T))
                  (fun x => (ln (S / K) + (r + x ^ 2 / 2) * T) / (x * sqrt T))
                  (fun x => x * sqrt T)
                  sigma 0 0 d' (sqrt T)
                  (derivable_pt_lim_const _ sigma)
                  (derivable_pt_lim_const _ sigma)
                  Hd'
                  (vol_sqrt_vol T sigma)
                  cdf_at_minus_d1 cdf_at_minus_d2 put_density_balance) as H.
    cbv beta in H. fold d1 in H. fold d2 in H. rewrite pdf_even_at_d1 in H.
    replace (S * norm_pdf d1 * sqrt T)
      with (0 * norm_cdf (- d2) - 0 * norm_cdf (- d1) + S * norm_pdf d1 * sqrt T) by ring.
    exact H.
Qed.

End PutSensitivities.

(** ** The put sensitivities at the money *)

Lemma gaussian_pdf_even (x : R) : gaussian_pdf (- x) = gaussian_pdf x.
Proof. unfold gaussian_pdf. replace ((- x) ^ 2) with (x ^ 2) by ring. reflexivity. Qed.

Lemma gaussian_pdf_shift_opp (d s : R) :
  gaussian_pdf (- (d - s)) = exp (d * s - s ^ 2 / 2) * gaussian_pdf (- d).
Proof.
  unfold gaussian_pdf. unfold Rdiv at 1 4. rewrite <- Rmult_assoc, <- exp_plus.
  f_equal. f_equal. field.
Qed.

Lemma sample_cdf_at_minus_d1 :
  let d1 := (ln (100 / 100) + (1 / 20 + (1 / 5) ^ 2 / 2) * 1) / (1 / 5 * sqrt 1) in
  derivable_pt_lim gaussian_primitive (- d1) (gaussian_pdf (- d1)).
Proof.
  intros d1. apply gaussian_primitive_derivative. unfold d1. rewrite sample_d1. lra.
Qed.

Lemma sample_cdf_at_minus_d2 :
  let d1 := (ln (100 / 100) + (1 / 20 + (1 / 5) ^ 2 / 2) * 1) / (1 / 5 * sqrt 1) in
  let d2 := d1 - 1 / 5 * sqrt 1 in
  derivable_pt_lim gaussian_primitive (- d2) (gaussian_pdf (- d2)).
Proof.
  intros d1 d2. apply gaussian_primitive_derivative.
  unfold d2, d1. rewrite sample_d1, sqrt_1. lra.
Qed.


Lemma put_rho_is_rate_sensitivity_witness :
  exists h,
    GreeksCalculator.rho gaussian_primitive 100 100 1 (1 / 20) (1 / 5) "put" = Return h /\
    derivable_pt_lim
      (fun x =>
         100 * exp (- x * 1)
         * gaussian_primitive
             (- ((ln (100 / 100) + (x + (1 / 5) ^ 2 / 2) * 1) / (1 / 5 * sqrt 1)
                 - 1 / 5 * sqrt 1))
         - 100 * gaussian_primitive
                   (- ((ln (100 / 100) + (x + (1 / 5) ^ 2 / 2) * 1) / (1 / 5 * sqrt 1))))
      (1 / 20) h.
Proof.
  apply (put_rho_is_rate_sensitivity gaussian_primitive gaussian_pdf
           100 100 1 (1 / 20) (1 / 5)); try lra.
  - exact sample_cdf_at_minus_d1.
  - exact sample_cdf_at_minus_d2.
  - apply gaussian_pdf_shift_opp.
Defined.

Lemma put_theta_is_time_decay_witness :
  exists t,
    GreeksCalculator.theta gaussian_primitive gaussian_pdf 100 100 1 (1 / 20) (1 / 5) "put"
    = Return t /\
    derivable_pt_lim
      (fun x =>
         100 * exp (- (1 / 20) * x)
         * gaussian_primitive
             (- ((ln (100 / 100) + (1 / 20 + (1 / 5) ^ 2 / 2) * x) / (1 / 5 * sqrt x)
                 - 1 / 5 * sqrt x))
         - 100 * gaussian_primitive
                   (- ((ln (100 / 100) + (1 / 20 + (1 / 5) ^ 2 / 2) * x)
                       / (1 / 5 * sqrt x))))
      1 (- (365 * t)).
Proof.
  apply (put_theta_is_time_decay gaussian_primitive gaussian_pdf
           100 100 1 (1 / 20) (1 / 5)); try lra.
  - exact sample_cdf_at_minus_d1.
  - exact sample_cdf_at_minus_d2.
  - apply gaussian_pdf_shift_opp.
  - apply gaussian_pdf_even.
Defined.

Lemma put_vega_is_volatility_sensitivity_witness :
  exists v,
    GreeksCalculator.vega gaussian_pdf 100 100 1 (1 / 20) (1 / 5) = Return v /\
    derivable_pt_lim
      (fun x =>
         100 * exp (- (1 / 20) * 1)
         * gaussian_primitive
             (- ((ln (100 / 100) + (1 / 20 + x ^ 2 / 2) * 1) / (x * sqrt 1) - x * sqrt 1))
         - 100 * gaussian_primitive
                   (- ((ln (100 / 100) + (1 / 20 + x ^ 2 / 2) * 1) / (x * sqrt 1))))
      (1 / 5) v.
Proof.
  apply (put_vega_is_volatility_sensitivity gaussian_primitive gaussian_pdf
           100 100 1 (1 / 20) (1 / 5)); try lra.
  - exact sample_cdf_at_minus_d1.
  - exact sample_cdf_at_minus_d2.
  - apply gaussian_pdf_shift_opp.
  - apply gaussian_pdf_even.
Defined.

(** ** The auxiliary [d1_d2] *)

Section AuxiliaryD1D2.

Variable norm_cdf : R -> R.

(** X23. For S > 0, K > 0, T > 0 and sigma > 0 the auxiliary d1_d2 of the
    pricer and the _d1_d2 of the Greeks return the same pair (d1, d2), which
    is the one that the price and Delta use; it satisfies
    d1 - d2 = sigma * sqrt T and d1^2 - d2^2 = 2 * (ln (S / K) + r * T). *)
Theorem d1_d2_shared (S K T r sigma : R) :
  0 < S -> 0 < K -> 0 < T -> 0 < sigma ->
  exists d1 d2,
    BlackScholesPricer.d1_d2 S K T r sigma = Return (d1, d2) /\
    GreeksCalculator._d1_d2 S K T r sigma = Return (d1, d2) /\
    d1 - d2 = sigma * sqrt T /\
    d1 ^ 2 - d2 ^ 2 = 2 * (ln (S / K) + r * T) /\
    BlackScholesPricer.price norm_cdf S K T r sigma "call"
    = Return (Rmax (S * norm_cdf d1 - K * exp (- r * T) * norm_cdf d2) 0) /\
    GreeksCalculator.delta norm_cdf S K T r sigma "call" = Return (norm_cdf d1).
Proof.
  intros HS HK' HT Hs.
  assert (HK : K <> 0) by lra.
  set (d1 := (ln (S / K) + (r + sigma ^ 2 / 2) * T) / (sigma * sqrt T)).
  exists d1, (d1 - sigma * sqrt T).
  split; [apply (_d1_d2_normal S K T r sigma); assumption |].
  split; [apply (_d1_d2_normal S K T r sigma); assumption |].
  split; [ring |]. split; [| split].
  - pose proof (d1_times_vol S K T r sigma HT Hs) as H. cbv zeta in H. fold d1 in H.
    replace (d1 ^ 2 - (d1 - sigma * sqrt T) ^ 2)
      with (2 * (d1 * (sigma * sqrt T) - (sigma * sqrt T) ^ 2 / 2)) by field.
    rewrite H. reflexivity.
  - apply (price_normal norm_cdf S K T r sigma "call"); assumption.
  - apply (delta_normal norm_cdf S K T r sigma "call"); assumption.
Qed.

End AuxiliaryD1D2.

Lemma d1_d2_shared_witness :
  exists d1 d2,
    BlackScholesPricer.d1_d2 100 100 1 (1 / 20) (1 / 5) = Return (d1, d2) /\
    GreeksCalculator._d1_d2 100 100 1 (1 / 20) (1 / 5) = Return (d1, d2) /\
    d1 - d2 = 1 / 5 * sqrt 1 /\
    d1 ^ 2 - d2 ^ 2 = 2 * (ln (100 / 100) + 1 / 20 * 1) /\
    BlackScholesPricer.price tail_cdf 100 100 1 (1 / 20) (1 / 5) "call"
    = Return (Rmax (100 * tail_cdf d1 - 100 * exp (- (1 / 20) * 1) * tail_cdf d2) 0) /\
    GreeksCalculator.delta tail_cdf 100 100 1 (1 / 20) (1 / 5) "call" = Return (tail_cdf d1).
Proof.
  apply (d1_d2_shared tail_cdf 100 100 1 (1 / 20) (1 / 5)); lra.
Defined.
